(** * tinycss core parser (src/tinycss/core.py): a shallow embedding

    The recursive-descent parser for the CSS core grammar, embedded as
    Rocq functions.  Python exceptions are values of an error monad,
    the shared token iterator is threaded through as the list of the
    tokens that remain, and the mutable [rules]/[errors] lists are
    accumulators.  [str.lower()], a builtin, is written out for
    strings of ASCII characters and taken as a parameter for the
    others. *)

From Stdlib Require Import String Ascii List ZArith Lia Bool Arith.
From Equations Require Import Equations.
From Equations.Prop Require Import Logic.
Import ListNotations.

Set Warnings "-register-all".
Open Scope string_scope.
Open Scope list_scope.

(** ** Python strings *)

(** [str.lower()] on a string of ASCII characters: the letters [A] to
    [Z] become [a] to [z], every other character is kept. *)
Definition lower_ascii (c : ascii) : ascii :=
  let n := nat_of_ascii c in
  if (65 <=? n)%nat && (n <=? 90)%nat then ascii_of_nat (n + 32) else c.

Fixpoint ascii_lower (s : string) : string :=
  match s with
  | EmptyString => EmptyString
  | String c s' => String (lower_ascii c) (ascii_lower s')
  end.

(** Whether a string holds ASCII characters only. *)
Fixpoint is_ascii (s : string) : bool :=
  match s with
  | EmptyString => true
  | String c s' => (nat_of_ascii c <? 128)%nat && is_ascii s'
  end.


(** [x in s] for two strings: substring test. *)
Fixpoint str_in (x s : string) : bool :=
  String.prefix x s ||
  match s with
  | EmptyString => false
  | String _ s' => str_in x s'
  end.

(** [x in (a, b, ...)] for a tuple of strings: membership. *)
Definition in_tuple (x : string) (l : list string) : bool :=
  existsb (String.eqb x) l.

(** Truth value of a list ([if this_part:], [head or ...]). *)
Definition truthy {A : Type} (l : list A) : bool :=
  match l with
  | [] => false
  | _ :: _ => true
  end.

Definition dquote : ascii := ascii_of_nat 34.

(** ** Tokens *)

(** Modelled from the spec: the tokenizer module is not part of the
    sources.  A [Token] has a type, its CSS text, a value and a
    position.  A [ContainerToken] is built as in
    [ContainerToken('SELECTOR', '', '', selector_parts, line, column)]:
    type, opening and closing text, content, position.  Only a
    [ContainerToken] has [content]; only a [Token] has [value]. *)
Inductive token : Type :=
| Token (type_ as_css value : string) (line column : Z)
| ContainerToken (type_ css_start css_end : string)
    (content : list token) (line column : Z).

(** The token iterator, as the list of the tokens it still holds. *)
Definition token_iter : Type := list token.

(** A token read from the iterator, with the iterator after it. *)
Definition token_read : Type := (token * token_iter)%type.

Definition tok_type (t : token) : string :=
  match t with
  | Token ty _ _ _ _ => ty
  | ContainerToken ty _ _ _ _ _ => ty
  end.

Definition tok_line (t : token) : Z :=
  match t with
  | Token _ _ _ l _ => l
  | ContainerToken _ _ _ _ l _ => l
  end.

Definition tok_column (t : token) : Z :=
  match t with
  | Token _ _ _ _ c => c
  | ContainerToken _ _ _ _ _ c => c
  end.

(** Modelled from the spec: the CSS text of a container is its opening
    text, the text of its content, and its closing text. *)
Fixpoint tok_as_css (t : token) : string :=
  match t with
  | Token _ css _ _ _ => css
  | ContainerToken _ css_start css_end content _ _ =>
      (css_start ++
       fold_right (fun t acc => tok_as_css t ++ acc) css_end content)%string
  end.

(** Induction over tokens that reaches into container contents. *)
Section TokenInduction.
Variable P : token -> Prop.
Hypothesis P_token : forall ty css v l c, P (Token ty css v l c).
Hypothesis P_container : forall ty cs ce content l c,
    Forall P content -> P (ContainerToken ty cs ce content l c).

Fixpoint token_nested_ind (t : token) : P t :=
  match t with
  | Token ty css v l c => P_token ty css v l c
  | ContainerToken ty cs ce content l c =>
      P_container ty cs ce content l c
        ((fix all (ts : list token) : Forall P ts :=
            match ts with
            | [] => Forall_nil P
            | t' :: ts' => Forall_cons t' (token_nested_ind t') (all ts')
            end) content)
  end.
End TokenInduction.

(** ** Parsed values *)

Module Declaration.
Record t : Type := mk
  { name : string; value : token; line : Z; column : Z }.
End Declaration.

Module AtRule.
Record t : Type := mk
  { at_keyword : string; head : list token; body : option token;
    line : Z; column : Z }.
End AtRule.

Module RuleSet.
Record t : Type := mk
  { selector : token; declarations : list Declaration.t;
    line : Z; column : Z }.
(** The class attribute [at_keyword = None]. *)
Definition at_keyword (_ : t) : option string := None.
End RuleSet.

(** An element of the mixed [rules] list
    (grammar: [statement : ruleset | at-rule]). *)
Inductive statement : Type :=
| IsAtRule (r : AtRule.t)
| IsRuleSet (r : RuleSet.t).

(** [rule.at_keyword] on an element of the mixed list. *)
Definition rule_at_keyword (r : statement) : option string :=
  match r with
  | IsAtRule a => Some (AtRule.at_keyword a)
  | IsRuleSet s => RuleSet.at_keyword s
  end.

(** ** Exceptions *)

(** What a [ParseError] is raised about: a token, or an at-rule. *)
Inductive subject : Type :=
| OnToken (t : token)
| OnRule (r : AtRule.t).

Module ParseError.
Record t : Type := mk { subject_ : subject; reason : string }.
Definition line (e : t) : Z :=
  match subject_ e with
  | OnToken t => tok_line t
  | OnRule r => AtRule.line r
  end.
Definition column (e : t) : Z :=
  match subject_ e with
  | OnToken t => tok_column t
  | OnRule r => AtRule.column r
  end.
End ParseError.

Module Stylesheet.
Record t : Type := mk
  { rules : list statement; errors : list ParseError.t }.
End Stylesheet.

(** [ParseError] and the built-in exceptions the code can raise. *)
Inductive exn : Type :=
| EParseError (e : ParseError.t)
| StopIteration
| UnboundLocalError (variable : string)
| AttributeError (attribute : string)
| IndexError.

Inductive result (A : Type) : Type :=
| Ok (a : A)
| Raise (e : exn).
Arguments Ok {A} a.
Arguments Raise {A} e.

Definition bind {A B : Type} (c : result A) (k : A -> result B) : result B :=
  match c with
  | Ok a => k a
  | Raise e => Raise e
  end.

Declare Scope result_scope.
Delimit Scope result_scope with result.
Notation "x <- c ;; k" := (bind c (fun x => k))
  (at level 61, c at next level, right associativity) : result_scope.
Notation "c ;; k" := (bind c (fun _ => k))
  (at level 61, right associativity) : result_scope.
Open Scope result_scope.

Definition parse_error {A : Type} (s : subject) (reason : string) : result A :=
  Raise (EParseError (ParseError.mk s reason)).

(** [token.value] and [token.content]. *)
Definition tok_value (t : token) : result string :=
  match t with
  | Token _ _ v _ _ => Ok v
  | ContainerToken _ _ _ _ _ _ => Raise (AttributeError "value")
  end.

Definition tok_content (t : token) : result (list token) :=
  match t with
  | Token _ _ _ _ _ => Raise (AttributeError "content")
  | ContainerToken _ _ _ content _ _ => Ok content
  end.

(** [for x in l: body(x)] where the body only raises or passes. *)
Section ForEach.
Context {A : Type} (body : A -> result unit).
Fixpoint for_each (l : list A) : result unit :=
  match l with
  | [] => Ok tt
  | x :: l' => body x ;; for_each l'
  end.
End ForEach.

(** ** Grammar validator *)

Definition any_types : list string :=
  ["S"; "IDENT"; "DIMENSION"; "PERCENTAGE"; "NUMBER";
   "URI"; "DELIM"; "STRING"; "HASH"; ":"; "UNICODE-RANGE"].

Definition any_container_types : list string := ["FUNCTION"; "("; "["].

Definition closing_types : list string := ["}"; ")"; "]"].

Definition adjective (type_ : string) : string :=
  if in_tuple type_ closing_types then "unmatched" else "unexpected".

Fixpoint validate_any (token : token) (context : string) : result unit :=
  let type_ := tok_type token in
  if in_tuple type_ any_container_types then
    match token with
    | ContainerToken _ _ _ content _ _ =>
        for_each (fun token => validate_any token type_) content
    | Token _ _ _ _ _ => Raise (AttributeError "content")
    end
  else if negb (in_tuple type_ any_types) then
    parse_error (OnToken token)
      (adjective type_ ++ " " ++ type_ ++ " token in " ++ context)%string
  else Ok tt.

(** The body of the loop of [validate_block], for one token. *)
Fixpoint validate_block_token (context : string) (token : token) : result unit :=
  let type_ := tok_type token in
  if type_ =? "{" then
    match token with
    | ContainerToken _ _ _ content _ _ =>
        for_each (validate_block_token context) content
    | Token _ _ _ _ _ => Raise (AttributeError "content")
    end
  else if negb (in_tuple type_ [";"; "ATKEYWORD"]) then
    validate_any token context
  else Ok tt.

Definition validate_block (tokens : list token) (context : string) : result unit :=
  for_each (validate_block_token context) tokens.

(** ** Case mapping *)

Section CaseMapping.

(** [str.lower()] is a builtin of Python.  On a string of ASCII
    characters it is [ascii_lower]; on any other string it follows the
    case mapping of Unicode, which is a parameter of what follows:
    [unicode_lower] stands for [str.lower()] on the strings that hold
    a character outside ASCII. *)
Variable unicode_lower : string -> string.

Definition lower (s : string) : string :=
  if is_ascii s then ascii_lower s else unicode_lower s.

(** ** Declaration engine *)

(** [while content and content[-1].type == 'S': content.pop()], run on
    the reversed list: the last element is the head. *)
Fixpoint pop_while_S (reversed : list token) : list token :=
  match reversed with
  | [] => []
  | last :: before =>
      if tok_type last =? "S" then pop_while_S before else reversed
  end.

Fixpoint parse_value_loop (content tokens : list token) : result (list token) :=
  match tokens with
  | [] => Ok content
  | token :: tokens =>
      let type_ := tok_type token in
      if truthy content || negb (type_ =? "S") then
        (if type_ =? "{" then
           block <- tok_content token ;;
           validate_block block "property value"
         else validate_any token "property value") ;;
        parse_value_loop (content ++ [token]) tokens
      else parse_value_loop content tokens
  end.

Definition parse_value (tokens : list token) : result (list token) :=
  content <- parse_value_loop [] tokens ;;
  Ok (rev (pop_while_S (rev content))).

(** The [for token in tokens: ... else: ...] loop of
    [parse_declaration] that looks for the colon.  The local variable
    [token] is [None] as long as the loop has not assigned it.  On
    [break] the loop hands back [token] and the rest of the iterator. *)
Fixpoint find_colon (token : option token) (tokens : token_iter)
  : result token_read :=
  match tokens with
  | [] =>
      match token with
      | None => Raise (UnboundLocalError "token")
      | Some token => parse_error (OnToken token) "expected ':'"
      end
  | token :: tokens =>
      if tok_type token =? ":" then Ok (token, tokens)
      else if negb (tok_type token =? "S") then
        parse_error (OnToken token)
          ("expected ':', got " ++ tok_type token)%string
      else find_colon (Some token) tokens
  end.

Definition parse_declaration (tokens : list token) : result Declaration.t :=
  match tokens with
  | [] => Raise StopIteration
  | name_token :: tokens =>
      property_name <-
        (if tok_type name_token =? "IDENT" then
           value <- tok_value name_token ;; Ok (lower value)
         else
           parse_error (OnToken name_token)
             ("expected a property name, got " ++ tok_type name_token)%string) ;;
      found <- find_colon None tokens ;;
      let '(token, tokens) := found in
      value <- parse_value tokens ;;
      match value with
      | [] => parse_error (OnToken token) "expected a property value"
      | first :: _ =>
          Ok (Declaration.mk property_name
                (ContainerToken "VALUES" "" "" value
                   (tok_line first) (tok_column first))
                (tok_line name_token) (tok_column name_token))
      end
  end.

(** The first loop of [parse_declaration_list]: split at [';']. *)
Fixpoint split_parts (parts : list (list token)) (this_part tokens : list token)
  : list (list token) :=
  match tokens with
  | [] => if truthy this_part then parts ++ [this_part] else parts
  | token :: tokens =>
      let type_ := tok_type token in
      if type_ =? ";" then
        split_parts (if truthy this_part then parts ++ [this_part] else parts)
          [] tokens
      else if truthy this_part || negb (type_ =? "S") then
        split_parts parts (this_part ++ [token]) tokens
      else split_parts parts this_part tokens
  end.

(** The second loop: [try: ... except ParseError] around each part. *)
Fixpoint parse_parts (declarations : list Declaration.t)
    (errors : list ParseError.t) (parts : list (list token))
  : result (list Declaration.t * list ParseError.t) :=
  match parts with
  | [] => Ok (declarations, errors)
  | part :: parts =>
      match parse_declaration part with
      | Ok declaration => parse_parts (declarations ++ [declaration]) errors parts
      | Raise (EParseError e) => parse_parts declarations (errors ++ [e]) parts
      | Raise e => Raise e
      end
  end.

Definition parse_declaration_list (tokens : list token)
  : result (list Declaration.t * list ParseError.t) :=
  parse_parts [] [] (split_parts [] [] tokens).

(** ** Rule engine *)

(** The loop of [read_at_rule]; [token] is the loop variable, set to
    [at_keyword_token] before the loop.  The second component is what
    is left in the iterator. *)
Fixpoint read_at_rule_loop (at_keyword : string) (at_keyword_token : token)
    (head : list token) (token : token) (tokens : token_iter)
  : result AtRule.t * token_iter :=
  match tokens with
  | [] => (parse_error (OnToken token) "incomplete at-rule", [])
  | token :: tokens =>
      if str_in (tok_type token) "{;" then
        (for_each (fun head_token => validate_any head_token "at-rule head") head ;;
         let body := if tok_type token =? "{" then Some token else None in
         Ok (AtRule.mk at_keyword head body
               (tok_line at_keyword_token) (tok_column at_keyword_token)),
         tokens)
      else if truthy head || negb (tok_type token =? "S") then
        read_at_rule_loop at_keyword at_keyword_token (head ++ [token]) token tokens
      else
        read_at_rule_loop at_keyword at_keyword_token head token tokens
  end.

Definition read_at_rule (at_keyword_token : token) (tokens : list token)
  : result AtRule.t * list token :=
  match tok_value at_keyword_token with
  | Raise e => (Raise e, tokens)
  | Ok value =>
      read_at_rule_loop (lower value) at_keyword_token [] at_keyword_token tokens
  end.

(** The loop of [parse_ruleset] over [chain([first_token], tokens)]. *)
Fixpoint parse_ruleset_loop (first_token : token) (selector_parts : list token)
    (token : token) (tokens : token_iter)
  : result (RuleSet.t * list ParseError.t) * token_iter :=
  match tokens with
  | [] =>
      (parse_error (OnToken token) "no declaration block found for ruleset", [])
  | token :: tokens =>
      if tok_type token =? "{" then
        (for_each (fun selector_token => validate_any selector_token "selector")
           selector_parts ;;
         let start := match selector_parts with
                      | first :: _ => first
                      | [] => token
                      end in
         let selector := ContainerToken "SELECTOR" "" "" selector_parts
                           (tok_line start) (tok_column start) in
         block <- tok_content token ;;
         parsed <- parse_declaration_list block ;;
         let '(declarations, errors) := parsed in
         Ok (RuleSet.mk selector declarations
               (tok_line first_token) (tok_column first_token), errors),
         tokens)
      else
        parse_ruleset_loop first_token (selector_parts ++ [token]) token tokens
  end.

Definition parse_ruleset (first_token : token) (tokens : list token)
  : result (RuleSet.t * list ParseError.t) * list token :=
  parse_ruleset_loop first_token [] first_token (first_token :: tokens).

(** ** Stylesheet driver *)

(** The two lists a [parse_at_rule] method may append to. *)
Definition lists : Type := (list statement * list ParseError.t)%type.

(** A [parse_at_rule] method: what it returns or raises, and the lists
    as it leaves them. *)
Definition at_rule_method : Type :=
  AtRule.t -> list statement -> list ParseError.t -> result bool * lists.

(** [s[0]] on a string. *)
Definition str_first (s : string) : result ascii :=
  match s with
  | EmptyString => Raise IndexError
  | String c _ => Ok c
  end.

(** [len(rule.head) == 1 and rule.head[0].type == 'STRING'
     and rule.head[0].as_css[0] == DQUOTE and not rule.body], where
    DQUOTE is the one-character string holding a double quote.  The
    body is None or a ContainerToken, which is true like any object
    without a length. *)
Definition charset_head_ok (rule : AtRule.t) : result bool :=
  if (length (AtRule.head rule) =? 1)%nat then
    match AtRule.head rule with
    | [] => Raise IndexError
    | head0 :: _ =>
        if tok_type head0 =? "STRING" then
          c <- str_first (tok_as_css head0) ;;
          Ok (Ascii.eqb c dquote &&
              match AtRule.body rule with
              | None => true
              | Some _ => false
              end)
        else Ok false
    end
  else Ok false.

(** [CoreParser.parse_at_rule]: it appends to neither list. *)
Definition parse_at_rule : at_rule_method :=
  fun rule stylesheet_rules errors =>
    (if AtRule.at_keyword rule =? "@charset" then
       (if ((AtRule.line rule =? 1) && (AtRule.column rule =? 1))%Z then
          ok <- charset_head_ok rule ;;
          if negb ok then parse_error (OnRule rule) "invalid @charset rule"
          else Ok tt
        else
          parse_error (OnRule rule)
            "@charset rule not at the beginning of the stylesheet") ;;
       Ok true
     else Ok false,
     (stylesheet_rules, errors)).

(** [for parse_at_rule in parse_at_rule_methods: ... else: ...] *)
Fixpoint dispatch (methods : list at_rule_method) (rule : AtRule.t)
    (rules : list statement) (errors : list ParseError.t)
  : result unit * lists :=
  match methods with
  | [] =>
      (Ok tt,
       (rules,
        errors ++ [ParseError.mk (OnRule rule)
                     ("unknown at-rule: " ++ AtRule.at_keyword rule)%string]))
  | parse_at_rule :: methods =>
      let '(handled, (rules, errors)) := parse_at_rule rule rules errors in
      match handled with
      | Raise e => (Raise e, (rules, errors))
      | Ok true => (Ok tt, (rules, errors))
      | Ok false => dispatch methods rule rules errors
      end
  end.

(** One turn of the loop of [parse_rules], with its [try]/[except]:
    the iterator and the lists after the turn, or the exception that
    [except ParseError] does not catch. *)
Definition parse_statement (methods : list at_rule_method) (token : token)
    (tokens : token_iter) (rules : list statement) (errors : list ParseError.t)
  : result (token_iter * lists) :=
  if negb (in_tuple (tok_type token) ["S"; "CDO"; "CDC"]) then
    let '(outcome, tokens, (rules, errors)) :=
      if tok_type token =? "ATKEYWORD" then
        let '(read, tokens) := read_at_rule token tokens in
        match read with
        | Raise e => (Raise e, tokens, (rules, errors))
        | Ok rule =>
            let '(handled, after) := dispatch methods rule rules errors in
            (handled, tokens, after)
        end
      else
        let '(parsed, tokens) := parse_ruleset token tokens in
        match parsed with
        | Raise e => (Raise e, tokens, (rules, errors))
        | Ok (rule, rule_errors) =>
            (Ok tt, tokens, (rules ++ [IsRuleSet rule], errors ++ rule_errors))
        end in
    match outcome with
    | Ok _ => Ok (tokens, (rules, errors))
    | Raise (EParseError e) => Ok (tokens, (rules, errors ++ [e]))
    | Raise e => Raise e
    end
  else Ok (tokens, (rules, errors)).

(** The readers only take tokens out of the iterator. *)
Lemma read_at_rule_loop_rest kw kwt head token tokens :
  length (snd (read_at_rule_loop kw kwt head token tokens)) <= length tokens.
Proof.
  revert head token.
  induction tokens as [|t ts IH]; intros head token;
    cbn [read_at_rule_loop snd length]; [lia|].
  destruct (str_in (tok_type t) "{;"); cbn [snd]; [lia|].
  destruct (truthy head || negb (tok_type t =? "S"));
    (etransitivity; [apply IH | lia]).
Qed.

Lemma read_at_rule_rest token tokens :
  length (snd (read_at_rule token tokens)) <= length tokens.
Proof.
  unfold read_at_rule. destruct (tok_value token); simpl; [|lia].
  apply read_at_rule_loop_rest.
Qed.

Lemma parse_ruleset_loop_rest first parts token tokens :
  length (snd (parse_ruleset_loop first parts token tokens)) <= pred (length tokens).
Proof.
  revert parts token.
  induction tokens as [|t ts IH]; intros parts token;
    cbn [parse_ruleset_loop snd length]; [lia|].
  destruct (tok_type t =? "{"); cbn [snd Nat.pred]; [lia|].
  etransitivity; [apply IH | lia].
Qed.

Lemma parse_ruleset_rest token tokens :
  length (snd (parse_ruleset token tokens)) <= length tokens.
Proof.
  unfold parse_ruleset.
  etransitivity; [apply parse_ruleset_loop_rest | simpl; lia].
Qed.

Lemma parse_statement_rest methods token tokens rules errors rest after :
  parse_statement methods token tokens rules errors = Ok (rest, after) ->
  length rest <= length tokens.
Proof.
  unfold parse_statement.
  destruct (negb (in_tuple (tok_type token) ["S"; "CDO"; "CDC"])).
  2:{ intros [= <- _]. lia. }
  destruct (tok_type token =? "ATKEYWORD").
  - pose proof (read_at_rule_rest token tokens) as Hlen.
    destruct (read_at_rule token tokens) as [read rest']. simpl in Hlen.
    destruct read as [rule|e].
    + destruct (dispatch methods rule rules errors) as [handled [rs es]].
      destruct handled as [u|[e| | | |]]; intros [= <- _]; exact Hlen.
    + destruct e; intros [= <- _]; exact Hlen.
  - pose proof (parse_ruleset_rest token tokens) as Hlen.
    destruct (parse_ruleset token tokens) as [parsed rest']. simpl in Hlen.
    destruct parsed as [[rule rule_errors]|e].
    + intros [= <- _]; exact Hlen.
    + destruct e; intros [= <- _]; exact Hlen.
Qed.

(** The loop of [parse_rules]: every turn takes at least [token] out of
    the iterator. *)
Equations? parse_rules_loop (methods : list at_rule_method) (tokens : token_iter)
    (rules : list statement) (errors : list ParseError.t)
  : result lists by wf (length tokens) lt :=
  parse_rules_loop methods [] rules errors := Ok (rules, errors);
  parse_rules_loop methods (token :: tokens) rules errors
    with inspect (parse_statement methods token tokens rules errors) := {
    | exist _ (Raise e) _ := Raise e
    | exist _ (Ok (rest, (rules', errors'))) turn :=
        parse_rules_loop methods rest rules' errors' }.
Proof.
  apply parse_statement_rest in turn. simpl. lia.
Qed.

(** [parse_at_rule_methods] for [type(self) = CoreParser]: the MRO is
    [CoreParser, object] and only the first defines [parse_at_rule]. *)
Definition parse_at_rule_methods : list at_rule_method := [parse_at_rule].

Definition parse_rules (tokens : token_iter) : result lists :=
  parse_rules_loop parse_at_rule_methods tokens [] [].

(** The user API, from the grouped token stream on: the tokenizer
    ([tokenize_grouped]) is outside these sources. *)
Definition parse_stylesheet (tokens : token_iter) : result Stylesheet.t :=
  parsed <- parse_rules tokens ;;
  Ok (Stylesheet.mk (fst parsed) (snd parsed)).

Definition parse_style_attr (tokens : token_iter)
  : result (list Declaration.t * list ParseError.t) :=
  parse_declaration_list tokens.

(** * Properties *)

(** ** Helper lemmas *)

Lemma in_tuple_In x l : in_tuple x l = true <-> In x l.
Proof.
  unfold in_tuple. rewrite existsb_exists. split.
  - intros [y [Hy Heq]]. apply String.eqb_eq in Heq. now subst.
  - intros H. exists x. split; [exact H | apply String.eqb_refl].
Qed.

Lemma in_tuple_not_In x l : in_tuple x l = false <-> ~ In x l.
Proof.
  rewrite <- in_tuple_In. destruct (in_tuple x l); split; congruence.
Qed.

Lemma result_unit_ok (r : result unit) a : r = Ok a <-> r = Ok tt.
Proof. destruct a. tauto. Qed.

Lemma for_each_ok {A} (body : A -> result unit) l :
  for_each body l = Ok tt <-> Forall (fun x => body x = Ok tt) l.
Proof.
  induction l as [|x l IH]; simpl.
  - split; auto.
  - destruct (body x) as [[]|e] eqn:Hx; simpl.
    + rewrite IH. split.
      * intros H. now constructor.
      * intros H. now inversion H.
    + split; [discriminate|]. intros H. inversion H; congruence.
Qed.

Lemma for_each_raise {A} (body : A -> result unit) l e :
  for_each body l = Raise e -> exists x, In x l /\ body x = Raise e.
Proof.
  induction l as [|x l IH]; simpl; [discriminate|].
  destruct (body x) as [[]|e'] eqn:Hx; simpl.
  - intros H. destruct (IH H) as [y [Hy Hby]]. exists y. auto.
  - intros [= <-]. exists x. auto.
Qed.

Lemma for_each_app {A} (body : A -> result unit) l1 l2 :
  for_each body (l1 ++ l2) = (for_each body l1 ;; for_each body l2).
Proof.
  induction l1 as [|x l1 IH]; simpl; [reflexivity|].
  destruct (body x) as [[]|e]; simpl; [exact IH | reflexivity].
Qed.

(** ** The "any" production, in the words of the grammar *)

(** A token is an "any" when its type is one of the plain types, or
    when it is a FUNCTION, parenthesis or bracket container whose
    content is made of "any" tokens. *)
Inductive valid_any : token -> Prop :=
| valid_plain t :
    In (tok_type t) any_types -> valid_any t
| valid_container ty cs ce content l c :
    In ty any_container_types ->
    Forall valid_any content ->
    valid_any (ContainerToken ty cs ce content l c).

(** [reaches t context t' context']: validating [t] in [context]
    comes to validate [t'] in [context'], going down through
    FUNCTION, parenthesis and bracket containers; the context of a
    content token is the type of its container. *)
Inductive reaches : token -> string -> token -> string -> Prop :=
| reaches_here t context : reaches t context t context
| reaches_inside ty cs ce content l c context t t' context' :
    In ty any_container_types ->
    In t content ->
    reaches t ty t' context' ->
    reaches (ContainerToken ty cs ce content l c) context t' context'.

Lemma any_types_disjoint ty :
  In ty any_types -> In ty any_container_types -> False.
Proof.
  unfold any_types, any_container_types. simpl.
  intros H1 H2.
  repeat (destruct H1 as [<-|H1]; [repeat (destruct H2 as [H2|H2]; try discriminate); contradiction|]).
  contradiction.
Qed.

Lemma validate_any_plain token context :
  In (tok_type token) any_types -> validate_any token context = Ok tt.
Proof.
  intros H.
  assert (Hc : in_tuple (tok_type token) any_container_types = false).
  { apply in_tuple_not_In. intros Hin. eapply any_types_disjoint; eauto. }
  apply in_tuple_In in H.
  destruct token; cbn [validate_any tok_type] in *; rewrite Hc, H; reflexivity.
Qed.

Lemma validate_any_container ty cs ce content l c context :
  In ty any_container_types ->
  validate_any (ContainerToken ty cs ce content l c) context =
  for_each (fun token => validate_any token ty) content.
Proof.
  intros H. apply in_tuple_In in H.
  cbn [validate_any tok_type]. rewrite H. reflexivity.
Qed.

Lemma validate_any_other token context :
  ~ In (tok_type token) any_types ->
  ~ In (tok_type token) any_container_types ->
  validate_any token context =
  parse_error (OnToken token)
    (adjective (tok_type token) ++ " " ++ tok_type token ++ " token in " ++ context)%string.
Proof.
  intros H1 H2. apply in_tuple_not_In in H1, H2.
  destruct token; cbn [validate_any tok_type] in *; rewrite H2, H1; reflexivity.
Qed.

Lemma validate_any_ok_iff token :
  forall context, validate_any token context = Ok tt <-> valid_any token.
Proof.
  induction token as [ty css v l c | ty cs ce content l c IH] using token_nested_ind;
    intros context.
  - split.
    + intros H. constructor.
      cbn [validate_any tok_type] in H.
      destruct (in_tuple ty any_container_types); [discriminate|].
      destruct (in_tuple ty any_types) eqn:Hp; [|discriminate].
      now apply in_tuple_In.
    + intros H. inversion H; subst. now apply validate_any_plain.
  - destruct (in_tuple ty any_container_types) eqn:Hc.
    + apply in_tuple_In in Hc. rewrite validate_any_container by exact Hc.
      rewrite for_each_ok. split.
      * intros H. apply valid_container; [exact Hc|].
        rewrite Forall_forall in *. intros x Hx. apply (IH x Hx ty). now apply H.
      * intros H. inversion H as [t Hp | ? ? ? ? ? ? _ Hall]; subst.
        -- exfalso. eapply any_types_disjoint; eauto.
        -- rewrite Forall_forall in *. intros x Hx. apply (IH x Hx ty). now apply Hall.
    + split.
      * intros H. constructor.
        cbn [validate_any tok_type] in H. rewrite Hc in H.
        destruct (in_tuple ty any_types) eqn:Hp; [|discriminate].
        now apply in_tuple_In.
      * intros H. inversion H as [t Hp | ? ? ? ? ? ? Hin _]; subst.
        -- now apply validate_any_plain.
        -- apply in_tuple_In in Hin. congruence.
Qed.

Lemma validate_any_parse_error token :
  forall context e,
    validate_any token context = Raise (EParseError e) ->
    exists t ctx,
      reaches token context t ctx /\
      ~ In (tok_type t) any_types /\
      ~ In (tok_type t) any_container_types /\
      e = ParseError.mk (OnToken t)
            (adjective (tok_type t) ++ " " ++ tok_type t ++ " token in " ++ ctx)%string.
Proof.
  induction token as [ty css v l c | ty cs ce content l c IH] using token_nested_ind;
    intros context e H.
  - cbn [validate_any tok_type] in H.
    destruct (in_tuple ty any_container_types) eqn:Hc; [discriminate|].
    destruct (in_tuple ty any_types) eqn:Hp; [discriminate|].
    injection H as <-.
    exists (Token ty css v l c), context.
    repeat split; try (now apply in_tuple_not_In). constructor.
  - cbn [validate_any tok_type] in H.
    destruct (in_tuple ty any_container_types) eqn:Hc.
    + apply for_each_raise in H. destruct H as [x [Hx Hraise]].
      rewrite Forall_forall in IH.
      destruct (IH x Hx _ _ Hraise) as [t [ctx [Hr [H1 [H2 He]]]]].
      exists t, ctx. repeat split; auto.
      eapply reaches_inside; eauto. now apply in_tuple_In.
    + destruct (in_tuple ty any_types) eqn:Hp; [discriminate|].
      injection H as <-.
      exists (ContainerToken ty cs ce content l c), context.
      repeat split; try (now apply in_tuple_not_In). constructor.
Qed.

Lemma adjective_closing ty :
  In ty closing_types -> adjective ty = "unmatched".
Proof. intros H. unfold adjective. apply in_tuple_In in H. now rewrite H. Qed.

Lemma adjective_other ty :
  ~ In ty closing_types -> adjective ty = "unexpected".
Proof. intros H. unfold adjective. apply in_tuple_not_In in H. now rewrite H. Qed.

(** ** Tokens as the tokenizer groups them *)

Definition group_types : list string := ["{"; "("; "["; "FUNCTION"].

(** The tokenizer turns every opening brace, parenthesis, bracket and
    function name, and nothing else, into a container: a token is a
    container exactly when it has such a type. *)
Inductive well_formed : token -> Prop :=
| wf_plain ty css v l c :
    ~ In ty group_types -> well_formed (Token ty css v l c)
| wf_group ty cs ce content l c :
    In ty group_types ->
    Forall well_formed content ->
    well_formed (ContainerToken ty cs ce content l c).

Lemma validate_any_well_formed token :
  forall context,
    well_formed token ->
    validate_any token context = Ok tt \/
    exists e, validate_any token context = Raise (EParseError e).
Proof.
  clear unicode_lower.
  induction token as [ty css v l c | ty cs ce content l c IH] using token_nested_ind;
    intros context Hwf.
  - inversion Hwf as [? ? ? ? ? Hty|]; subst.
    cbn [validate_any tok_type].
    destruct (in_tuple ty any_container_types) eqn:Hc.
    + exfalso. apply Hty. apply in_tuple_In in Hc.
      unfold any_container_types, group_types in *. simpl in *. tauto.
    + destruct (in_tuple ty any_types); [left | right; eexists]; reflexivity.
  - inversion Hwf as [|? ? ? ? ? ? _ Hall]; subst.
    cbn [validate_any tok_type].
    destruct (in_tuple ty any_container_types).
    + clear Hwf. induction content as [|x xs IHxs]; [left; reflexivity|].
      inversion IH as [|? ? Hx Hxs]; subst. inversion Hall as [|? ? Wx Wxs]; subst.
      cbn [for_each].
      destruct (Hx ty Wx) as [-> | [e ->]]; cbn [bind].
      * apply IHxs; assumption.
      * right. eexists. reflexivity.
    + destruct (in_tuple ty any_types); [left | right; eexists]; reflexivity.
Qed.

(** C4: [validate_any] succeeds exactly on the tokens of the "any"
    production: a token whose type is one of IDENT, DIMENSION,
    PERCENTAGE, NUMBER, URI, DELIM, STRING, HASH, colon, UNICODE-RANGE
    or S, or a FUNCTION, parenthesis or bracket container whose content
    tokens all pass in turn.  Every other token fails.  A token of any
    other type raises the ParseError tagged "unmatched" when its type
    is a closing brace, parenthesis or bracket and "unexpected"
    otherwise; every ParseError raised is of that form, about a token
    reached through such containers, with the type of its container as
    context; and on tokens as the tokenizer groups them, every failure
    is such a ParseError. *)
Theorem validate_any_grammar (token : token) (context : string) :
  (validate_any token context = Ok tt <-> valid_any token) /\
  (~ valid_any token -> exists e, validate_any token context = Raise e) /\
  (~ In (tok_type token) any_types ->
   ~ In (tok_type token) any_container_types ->
   (In (tok_type token) closing_types ->
    validate_any token context =
    parse_error (OnToken token)
      ("unmatched " ++ tok_type token ++ " token in " ++ context)%string) /\
   (~ In (tok_type token) closing_types ->
    validate_any token context =
    parse_error (OnToken token)
      ("unexpected " ++ tok_type token ++ " token in " ++ context)%string)) /\
  (forall e,
      validate_any token context = Raise (EParseError e) ->
      exists t ctx,
        reaches token context t ctx /\
        ~ In (tok_type t) any_types /\
        ~ In (tok_type t) any_container_types /\
        ParseError.subject_ e = OnToken t /\
        ParseError.reason e =
        ((if in_tuple (tok_type t) closing_types then "unmatched" else "unexpected")
           ++ " " ++ tok_type t ++ " token in " ++ ctx)%string) /\
  (well_formed token -> ~ valid_any token ->
   exists e, validate_any token context = Raise (EParseError e)).
Proof.
  split; [apply validate_any_ok_iff|].
  split.
  { intros Hnot. destruct (validate_any token context) as [[]|e] eqn:H.
    - exfalso. apply Hnot. now apply (validate_any_ok_iff token context).
    - now exists e. }
  split.
  { intros H1 H2. rewrite (validate_any_other token context H1 H2). split; intros Hc.
    - now rewrite (adjective_closing _ Hc).
    - now rewrite (adjective_other _ Hc). }
  split.
  { intros e H.
    destruct (validate_any_parse_error token context e H) as [t [ctx [Hr [H1 [H2 ->]]]]].
    exists t, ctx. repeat split; assumption. }
  intros Hwf Hnot.
  destruct (validate_any_well_formed token context Hwf) as [Hok|Herr]; [|exact Herr].
  exfalso. apply Hnot. now apply (validate_any_ok_iff token context).
Qed.

Lemma validate_any_grammar_witness :
  validate_any (Token "}" "}" "}" 1 7) "selector" =
  parse_error (OnToken (Token "}" "}" "}" 1 7)) "unmatched } token in selector".
Proof.
  apply (proj1 (proj2 (proj2 (validate_any_grammar (Token "}" "}" "}" 1 7) "selector")))).
  - simpl. intuition discriminate.
  - simpl. intuition discriminate.
  - simpl. auto.
Defined.
Lemma parse_rules_loop_cons methods token tokens rules errors :
  parse_rules_loop methods (token :: tokens) rules errors =
  match parse_statement methods token tokens rules errors with
  | Raise e => Raise e
  | Ok (rest, (rules', errors')) => parse_rules_loop methods rest rules' errors'
  end.
Proof.
  simp parse_rules_loop.
  generalize (inspect (parse_statement methods token tokens rules errors)).
  intros [r Hr].
  transitivity (match r with
                | Raise e => Raise e
                | Ok (rest, (rules', errors')) =>
                    parse_rules_loop methods rest rules' errors'
                end).
  - destruct r as [[rest [rs es]]|e]; simp parse_rules_loop; reflexivity.
  - now rewrite Hr.
Qed.

(** ** The "block" production *)

(** The content of a brace block: nested blocks, [;] and at-keywords,
    and "any" tokens. *)
Inductive valid_block_token : token -> Prop :=
| valid_nested_block cs ce content l c :
    Forall valid_block_token content ->
    valid_block_token (ContainerToken "{" cs ce content l c)
| valid_block_filler t :
    In (tok_type t) [";"; "ATKEYWORD"] -> valid_block_token t
| valid_block_any t :
    valid_any t -> valid_block_token t.

Lemma valid_any_type t :
  valid_any t -> In (tok_type t) any_types \/ In (tok_type t) any_container_types.
Proof. intros H. inversion H; subst; simpl; auto. Qed.

Lemma valid_any_not_brace t : valid_any t -> tok_type t <> "{".
Proof.
  intros H Heq. apply valid_any_type in H. rewrite Heq in H.
  unfold any_types, any_container_types in H. simpl in H.
  intuition discriminate.
Qed.

Lemma valid_any_not_semicolon t : valid_any t -> tok_type t <> ";".
Proof.
  intros H Heq. apply valid_any_type in H. rewrite Heq in H.
  unfold any_types, any_container_types in H. simpl in H.
  intuition discriminate.
Qed.

Lemma validate_block_token_ok_iff token :
  forall context,
    validate_block_token context token = Ok tt <-> valid_block_token token.
Proof.
  clear unicode_lower.
  induction token as [ty css v l c | ty cs ce content l c IH] using token_nested_ind;
    intros context; cbn [validate_block_token tok_type].
  - destruct (ty =? "{") eqn:Hb.
    + apply String.eqb_eq in Hb. subst ty. split; [discriminate|].
      intros H. inversion H as [| t Hf | t Ha]; subst.
      * simpl in Hf. intuition discriminate.
      * now apply valid_any_not_brace in Ha.
    + destruct (in_tuple ty [";"; "ATKEYWORD"]) eqn:Hf; cbn [negb].
      * split; [|reflexivity]. intros _. apply valid_block_filler.
        now apply in_tuple_In.
      * rewrite validate_any_ok_iff. split.
        -- apply valid_block_any.
        -- intros H. inversion H as [| t Hf' | t Ha]; subst; [|exact Ha].
           apply in_tuple_In in Hf'. cbn [tok_type] in Hf'. congruence.
  - destruct (ty =? "{") eqn:Hb.
    + apply String.eqb_eq in Hb. subst ty. rewrite for_each_ok. split.
      * intros H. apply valid_nested_block.
        rewrite Forall_forall in *. intros x Hx. apply (IH x Hx context). now apply H.
      * intros H. inversion H as [? ? ? ? ? Hall | t Hf | t Ha]; subst.
        -- rewrite Forall_forall in *. intros x Hx. apply (IH x Hx context). now apply Hall.
        -- simpl in Hf. intuition discriminate.
        -- now apply valid_any_not_brace in Ha.
    + destruct (in_tuple ty [";"; "ATKEYWORD"]) eqn:Hf; cbn [negb].
      * split; [|reflexivity]. intros _. apply valid_block_filler.
        now apply in_tuple_In.
      * rewrite validate_any_ok_iff. split.
        -- apply valid_block_any.
        -- intros H. inversion H as [? ? ? ? ? Hall | t Hf' | t Ha]; subst.
           ++ now rewrite String.eqb_refl in Hb.
           ++ apply in_tuple_In in Hf'. cbn [tok_type] in Hf'. congruence.
           ++ exact Ha.
Qed.

Lemma validate_block_ok_iff tokens context :
  validate_block tokens context = Ok tt <-> Forall valid_block_token tokens.
Proof.
  unfold validate_block. rewrite for_each_ok.
  rewrite !Forall_forall. split; intros H x Hx.
  - apply (validate_block_token_ok_iff x context). now apply H.
  - apply (validate_block_token_ok_iff x context). now apply H.
Qed.

(** ** Declarations *)

Definition is_S (t : token) : Prop := tok_type t = "S".

(** A token of the "value" production: a brace block or an "any". *)
Inductive valid_value_token : token -> Prop :=
| valid_value_block cs ce content l c :
    Forall valid_block_token content ->
    valid_value_token (ContainerToken "{" cs ce content l c)
| valid_value_any t :
    valid_any t -> valid_value_token t.

Lemma valid_value_not_semicolon t : valid_value_token t -> tok_type t <> ";".
Proof.
  intros [cs ce content l c _ | t' H]; [discriminate|].
  now apply valid_any_not_semicolon.
Qed.

Lemma is_S_valid_value t : is_S t -> valid_value_token t.
Proof.
  intros H. apply valid_value_any, valid_plain. rewrite H.
  unfold any_types. simpl. auto.
Qed.

(** The check [parse_value] runs on a token it keeps. *)
Lemma value_check_ok t :
  valid_value_token t ->
  (if tok_type t =? "{" then
     block <- tok_content t ;; validate_block block "property value"
   else validate_any t "property value") = Ok tt.
Proof.
  intros [cs ce content l c Hall | t' H].
  - cbn. now apply validate_block_ok_iff.
  - destruct (tok_type t' =? "{") eqn:Hb.
    + apply String.eqb_eq in Hb. now apply valid_any_not_brace in H.
    + now apply validate_any_ok_iff.
Qed.

Lemma parse_value_loop_keep content tokens :
  truthy content = true ->
  Forall valid_value_token tokens ->
  parse_value_loop content tokens = Ok (content ++ tokens).
Proof.
  revert content. induction tokens as [|t ts IH]; intros content Hc Hall.
  - cbn. now rewrite app_nil_r.
  - inversion Hall as [|? ? Ht Hts]; subst.
    cbn [parse_value_loop]. rewrite Hc. cbn [orb].
    rewrite (value_check_ok t Ht). cbn [bind].
    rewrite IH; [now rewrite <- app_assoc | now destruct content | exact Hts].
Qed.

Lemma parse_value_loop_skip lead tokens :
  Forall is_S lead ->
  parse_value_loop [] (lead ++ tokens) = parse_value_loop [] tokens.
Proof.
  induction 1 as [|t ts Ht _ IH]; [reflexivity|].
  cbn [app parse_value_loop truthy orb]. rewrite Ht. cbn. exact IH.
Qed.

Lemma parse_value_loop_first first tokens :
  tok_type first <> "S" ->
  Forall valid_value_token (first :: tokens) ->
  parse_value_loop [] (first :: tokens) = Ok (first :: tokens).
Proof.
  intros Hf Hall. inversion Hall as [|? ? Ht Hts]; subst.
  cbn [parse_value_loop truthy orb].
  apply String.eqb_neq in Hf. rewrite Hf. cbn [negb].
  rewrite (value_check_ok first Ht). cbn [bind app].
  now rewrite parse_value_loop_keep.
Qed.

Lemma pop_while_S_trailing trail before :
  Forall is_S trail ->
  pop_while_S (rev trail ++ before) = pop_while_S before.
Proof.
  induction trail as [|t ts IH] using rev_ind; intros Hall; [reflexivity|].
  apply Forall_app in Hall. destruct Hall as [Hts Ht].
  inversion Ht as [|? ? HtS _]; subst.
  rewrite rev_app_distr. cbn [rev app pop_while_S]. rewrite HtS. cbn.
  now apply IH.
Qed.

Lemma strip_trailing first mid trail :
  tok_type (last (first :: mid) first) <> "S" ->
  Forall is_S trail ->
  rev (pop_while_S (rev ((first :: mid) ++ trail))) = first :: mid.
Proof.
  intros Hlast Htrail.
  rewrite rev_app_distr, pop_while_S_trailing by exact Htrail.
  destruct (exists_last (l := first :: mid)) as [front [z Heq]]; [discriminate|].
  rewrite Heq in *. rewrite last_last in Hlast.
  rewrite rev_app_distr. cbn [rev app pop_while_S].
  apply String.eqb_neq in Hlast. rewrite Hlast.
  change (z :: rev front) with (rev [z] ++ rev front).
  now rewrite <- rev_app_distr, rev_involutive.
Qed.

Lemma find_colon_skip token ws colon rest :
  Forall is_S ws ->
  tok_type colon = ":" ->
  find_colon token (ws ++ colon :: rest) = Ok (colon, rest).
Proof.
  intros Hws Hcolon. revert token.
  induction Hws as [|t ts Ht _ IH]; intros token.
  - cbn. now rewrite Hcolon.
  - cbn [app find_colon]. rewrite Ht. cbn. apply IH.
Qed.

(** C3 (amended): on a non-empty token sequence, a first token that
    is not an identifier makes [parse_declaration] fail with the
    ParseError "expected a property name, got" followed by the type of
    that token, and nothing else; when the first token is an
    identifier, the name of the declaration is its value in lower
    case. *)
Theorem parse_declaration_property_name (name_token : token) (tokens : list token) :
  (tok_type name_token <> "IDENT" ->
   parse_declaration (name_token :: tokens) =
   parse_error (OnToken name_token)
     ("expected a property name, got " ++ tok_type name_token)%string) /\
  (forall css v l c declaration,
      name_token = Token "IDENT" css v l c ->
      parse_declaration (name_token :: tokens) = Ok declaration ->
      Declaration.name declaration = lower v).
Proof.
  split.
  - intros H. apply String.eqb_neq in H.
    cbn [parse_declaration]. rewrite H. reflexivity.
  - intros css v l c declaration -> H.
    cbn [parse_declaration tok_type tok_value] in H.
    rewrite String.eqb_refl in H. cbn [bind] in H.
    destruct (find_colon None tokens) as [[token rest]|e]; cbn [bind] in H; [|discriminate].
    destruct (parse_value rest) as [[|first value]|e]; cbn [bind] in H; try discriminate.
    now injection H as <-.
Qed.

(** ** Splitting a declaration list *)

Lemma split_parts_skip parts ws tokens :
  Forall is_S ws ->
  split_parts parts [] (ws ++ tokens) = split_parts parts [] tokens.
Proof.
  induction 1 as [|t ts Ht _ IH]; [reflexivity|].
  cbn [app split_parts truthy orb]. rewrite Ht. cbn. exact IH.
Qed.

Lemma split_parts_extend parts this_part segment tokens :
  truthy this_part = true ->
  Forall (fun t => tok_type t <> ";") segment ->
  split_parts parts this_part (segment ++ tokens) =
  split_parts parts (this_part ++ segment) tokens.
Proof.
  intros Hp Hseg. revert this_part Hp.
  induction Hseg as [|t ts Ht _ IH]; intros this_part Hp.
  - now rewrite app_nil_r.
  - cbn [app split_parts]. apply String.eqb_neq in Ht. rewrite Ht, Hp. cbn [orb].
    rewrite IH; [now rewrite <- app_assoc | now destruct this_part].
Qed.

Lemma split_parts_single ws0 first segment semi ws2 :
  Forall is_S ws0 ->
  tok_type first <> "S" ->
  Forall (fun t => tok_type t <> ";") (first :: segment) ->
  tok_type semi = ";" ->
  Forall is_S ws2 ->
  split_parts [] [] (ws0 ++ first :: segment ++ semi :: ws2) = [first :: segment].
Proof.
  intros H0 Hf Hseg Hsemi H2.
  rewrite split_parts_skip by exact H0.
  inversion Hseg as [|? ? Hfs Hrest]; subst.
  cbn [split_parts truthy orb].
  apply String.eqb_neq in Hfs, Hf. rewrite Hfs, Hf. cbn [negb app].
  rewrite split_parts_extend by (auto; reflexivity).
  cbn [split_parts app]. rewrite Hsemi. cbn.
  rewrite <- (app_nil_r ws2), split_parts_skip by exact H2.
  reflexivity.
Qed.

(** C8: a single valid declaration [name: value;] -- an identifier,
    optional white space, a colon, and value tokens of the core
    grammar that hold something besides white space -- gives exactly
    one declaration and no error: its name is the value of the
    identifier in lower case, and the content of its VALUES container
    is the value tokens without the white space before the first and
    after the last other token, the tokens between kept in order. *)
Theorem parse_declaration_list_round_trip
    (ws0 ws1 lead mid trail ws2 : list token) (colon first semi : token)
    (css v : string) (l c : Z) :
  Forall is_S ws0 -> Forall is_S ws1 ->
  tok_type colon = ":" ->
  Forall is_S lead ->
  tok_type first <> "S" ->
  tok_type (last (first :: mid) first) <> "S" ->
  Forall valid_value_token (first :: mid) ->
  Forall is_S trail ->
  tok_type semi = ";" ->
  Forall is_S ws2 ->
  parse_declaration_list
    (ws0 ++ Token "IDENT" css v l c :: ws1 ++ colon ::
       lead ++ (first :: mid) ++ trail ++ semi :: ws2) =
  Ok ([Declaration.mk (lower v)
         (ContainerToken "VALUES" "" "" (first :: mid)
            (tok_line first) (tok_column first)) l c],
      []).
Proof.
  intros H0 H1 Hcolon Hlead Hfirst Hlast Hvalid Htrail Hsemi H2.
  unfold parse_declaration_list.
  assert (Hshape :
    ws0 ++ Token "IDENT" css v l c :: ws1 ++ colon ::
      lead ++ (first :: mid) ++ trail ++ semi :: ws2 =
    ws0 ++ Token "IDENT" css v l c ::
      (ws1 ++ colon :: lead ++ (first :: mid) ++ trail) ++ semi :: ws2).
  { do 2 f_equal. symmetry.
    repeat (rewrite <- app_assoc; cbn [app]). reflexivity. }
  rewrite Hshape.
  assert (HS : forall ws, Forall is_S ws -> Forall (fun t => tok_type t <> ";") ws).
  { intros ws Hws. eapply Forall_impl; [|exact Hws].
    intros t Ht. unfold is_S in Ht. rewrite Ht. discriminate. }
  rewrite split_parts_single; try assumption; try discriminate.
  2:{ constructor; [discriminate|].
      apply Forall_app. split; [now apply HS|].
      constructor; [rewrite Hcolon; discriminate|].
      apply Forall_app. split; [now apply HS|].
      apply Forall_app. split; [|now apply HS].
      eapply Forall_impl; [|exact Hvalid]. apply valid_value_not_semicolon. }
  cbn [parse_parts parse_declaration tok_type tok_value].
  rewrite String.eqb_refl. cbn [bind].
  rewrite find_colon_skip by assumption. cbn [bind].
  unfold parse_value.
  rewrite parse_value_loop_skip by exact Hlead.
  rewrite <- app_comm_cons, parse_value_loop_first.
  2: exact Hfirst.
  2:{ rewrite app_comm_cons. apply Forall_app. split; [exact Hvalid|].
      eapply Forall_impl; [|exact Htrail]. apply is_S_valid_value. }
  cbn [bind].
  rewrite app_comm_cons, strip_trailing by assumption.
  reflexivity.
Qed.

(** ** Segments of a declaration list, in the words of the grammar *)

(** The token sequence cut at each top-level [;]: one more segment
    than there are separators, some of them possibly empty. *)
Fixpoint split_at_semicolons (tokens : list token) : list (list token) :=
  match tokens with
  | [] => [[]]
  | t :: ts =>
      if tok_type t =? ";" then [] :: split_at_semicolons ts
      else
        match split_at_semicolons ts with
        | segment :: others => (t :: segment) :: others
        | [] => [[t]]
        end
  end.

(** A segment without the white space it starts with. *)
Fixpoint skip_leading_S (segment : list token) : list token :=
  match segment with
  | [] => []
  | t :: ts => if tok_type t =? "S" then skip_leading_S ts else segment
  end.

(** The segments that hold something besides white space. *)
Definition segments (tokens : list token) : list (list token) :=
  filter truthy (map skip_leading_S (split_at_semicolons tokens)).

(** What the per-segment outcomes leave in the two returned lists. *)
Definition outcome_declarations (outcomes : list (result Declaration.t))
  : list Declaration.t :=
  flat_map (fun r => match r with Ok d => [d] | Raise _ => [] end) outcomes.

Definition outcome_errors (outcomes : list (result Declaration.t))
  : list ParseError.t :=
  flat_map (fun r => match r with Raise (EParseError e) => [e] | _ => [] end)
    outcomes.

(** An outcome [except ParseError] deals with: a value or a ParseError. *)
Definition recovered {A : Type} (r : result A) : Prop :=
  match r with
  | Ok _ => True
  | Raise (EParseError _) => True
  | Raise _ => False
  end.

(** A segment made of one identifier and nothing else. *)
Definition lone_identifier (segment : list token) : Prop :=
  exists t, segment = [t] /\ tok_type t = "IDENT".

Lemma split_at_semicolons_cons tokens :
  exists segment others, split_at_semicolons tokens = segment :: others.
Proof.
  destruct tokens as [|t ts]; cbn; [eauto|].
  destruct (tok_type t =? ";"); [eauto|].
  destruct (split_at_semicolons ts); eauto.
Qed.

Lemma split_parts_general tokens :
  forall parts this_part,
    split_parts parts this_part tokens =
    parts ++
    filter truthy
      match split_at_semicolons tokens with
      | [] => []
      | segment :: others =>
          (if truthy this_part then this_part ++ segment
           else skip_leading_S segment) :: map skip_leading_S others
      end.
Proof.
  induction tokens as [|t ts IH]; intros parts this_part.
  - cbn. destruct this_part; cbn; [now rewrite app_nil_r|].
    now rewrite app_nil_r.
  - cbn [split_parts split_at_semicolons].
    destruct (tok_type t =? ";") eqn:Hsemi.
    + rewrite IH. cbn [truthy].
      destruct (split_at_semicolons_cons ts) as [segment [others ->]].
      destruct this_part as [|p ps]; cbn [truthy skip_leading_S map filter app].
      * reflexivity.
      * rewrite app_nil_r. cbn [truthy]. now rewrite <- app_assoc.
    + destruct (split_at_semicolons_cons ts) as [segment [others Hsplit]].
      destruct (truthy this_part || negb (tok_type t =? "S")) eqn:Hkeep.
      * rewrite IH, Hsplit.
        assert (Htruthy : truthy (this_part ++ [t]) = true) by now destruct this_part.
        rewrite Htruthy. do 3 f_equal.
        destruct this_part as [|p ps]; cbn [truthy] in *.
        -- cbn [orb] in Hkeep. cbn [app skip_leading_S].
           destruct (tok_type t =? "S"); [discriminate | reflexivity].
        -- now rewrite <- app_assoc.
      * rewrite IH, Hsplit.
        destruct this_part as [|p ps]; cbn [truthy orb] in *; [|discriminate].
        cbn [skip_leading_S]. destruct (tok_type t =? "S"); [reflexivity | discriminate].
Qed.

Lemma split_parts_segments tokens : split_parts [] [] tokens = segments tokens.
Proof.
  rewrite split_parts_general. unfold segments. cbn [app truthy].
  now destruct (split_at_semicolons_cons tokens) as [segment [others ->]].
Qed.

Lemma split_at_semicolons_in tokens segment t :
  In segment (split_at_semicolons tokens) -> In t segment ->
  In t tokens /\ tok_type t <> ";".
Proof.
  revert segment. induction tokens as [|x xs IH]; intros segment Hseg Ht.
  - cbn in Hseg. destruct Hseg as [<-|[]]. destruct Ht.
  - cbn [split_at_semicolons] in Hseg.
    destruct (tok_type x =? ";") eqn:Hsemi.
    + destruct Hseg as [<-|Hseg]; [destruct Ht|].
      destruct (IH segment Hseg Ht). split; [now right | assumption].
    + destruct (split_at_semicolons_cons xs) as [s0 [others Hsplit]].
      rewrite Hsplit in *.
      destruct Hseg as [<-|Hseg].
      * destruct Ht as [<-|Ht].
        -- split; [now left | now apply String.eqb_neq].
        -- destruct (IH s0 (or_introl eq_refl) Ht). split; [now right | assumption].
      * destruct (IH segment (or_intror Hseg) Ht). split; [now right | assumption].
Qed.

Lemma skip_leading_S_in segment t :
  In t (skip_leading_S segment) -> In t segment.
Proof.
  induction segment as [|x xs IH]; cbn; [auto|].
  destruct (tok_type x =? "S"); [intros H; right; auto | auto].
Qed.

Lemma skip_leading_S_first segment :
  match skip_leading_S segment with
  | [] => True
  | first :: _ => tok_type first <> "S"
  end.
Proof.
  induction segment as [|x xs IH]; cbn; [exact I|].
  destruct (tok_type x =? "S") eqn:Hx; [exact IH | now apply String.eqb_neq].
Qed.

(** Every segment starts with a token that is not white space, and is
    made of top-level tokens of the input, none of them a [;]. *)
Lemma segments_shape tokens segment :
  In segment (segments tokens) ->
  (exists first others, segment = first :: others /\ tok_type first <> "S") /\
  (forall t, In t segment -> In t tokens /\ tok_type t <> ";").
Proof.
  unfold segments. rewrite filter_In, in_map_iff.
  intros [[raw [<- Hraw]] Hne]. split.
  - pose proof (skip_leading_S_first raw) as Hfirst.
    destruct (skip_leading_S raw) as [|first others]; [discriminate|].
    now exists first, others.
  - intros t Ht. apply skip_leading_S_in in Ht.
    now apply (split_at_semicolons_in tokens raw).
Qed.

(** ** Recovery between declarations *)

Lemma parse_parts_outcomes parts :
  forall declarations errors,
    Forall (fun part => recovered (parse_declaration part)) parts ->
    parse_parts declarations errors parts =
    Ok (declarations ++ outcome_declarations (map parse_declaration parts),
        errors ++ outcome_errors (map parse_declaration parts)).
Proof.
  induction parts as [|part parts IH]; intros declarations errors Hall.
  - cbn. now rewrite !app_nil_r.
  - inversion Hall as [|? ? Hpart Hparts]; subst.
    cbn [parse_parts map outcome_declarations outcome_errors flat_map].
    destruct (parse_declaration part) as [d|[e| | | |]]; cbn in Hpart; try contradiction.
    + rewrite IH by exact Hparts. cbn [app]. now rewrite <- app_assoc.
    + rewrite IH by exact Hparts. cbn [app]. now rewrite <- app_assoc.
Qed.

Lemma parse_parts_raise parts :
  forall declarations errors x,
    parse_parts declarations errors parts = Raise x ->
    exists part,
      In part parts /\ parse_declaration part = Raise x /\
      ~ recovered (parse_declaration part).
Proof.
  induction parts as [|part parts IH]; intros declarations errors x H.
  - discriminate.
  - cbn [parse_parts] in H.
    destruct (parse_declaration part) as [d|[e| | | |]] eqn:Hpart;
      try (destruct (IH _ _ _ H) as [p [Hin Hp]]; exists p; split;
           [now right | exact Hp]);
      injection H as <-; exists part; rewrite Hpart; cbn; auto.
Qed.

Lemma parse_parts_never_parse_error parts :
  forall declarations errors e,
    parse_parts declarations errors parts <> Raise (EParseError e).
Proof.
  induction parts as [|part parts IH]; intros declarations errors e; cbn.
  - discriminate.
  - destruct (parse_declaration part) as [d|[e'| | | |]]; try discriminate; apply IH.
Qed.

(** ** What can escape a declaration *)

Lemma validate_block_token_well_formed token :
  forall context,
    well_formed token ->
    validate_block_token context token = Ok tt \/
    exists e, validate_block_token context token = Raise (EParseError e).
Proof.
  induction token as [ty css v l c | ty cs ce content l c IH] using token_nested_ind;
    intros context Hwf.
  - inversion Hwf as [? ? ? ? ? Hty|]; subst.
    cbn [validate_block_token tok_type].
    destruct (ty =? "{") eqn:Hb.
    + exfalso. apply Hty. apply String.eqb_eq in Hb. subst. simpl. auto.
    + destruct (negb (in_tuple ty [";"; "ATKEYWORD"])); [|now left].
      now apply validate_any_well_formed.
  - cbn [validate_block_token tok_type].
    destruct (ty =? "{").
    + inversion Hwf as [|? ? ? ? ? ? _ Hall]; subst. clear Hwf.
      induction content as [|x xs IHxs]; [left; reflexivity|].
      inversion IH as [|? ? Hx Hxs]; subst. inversion Hall as [|? ? Wx Wxs]; subst.
      cbn [for_each].
      destruct (Hx context Wx) as [-> | [e ->]]; cbn [bind].
      * apply IHxs; assumption.
      * right. eexists. reflexivity.
    + destruct (negb (in_tuple ty [";"; "ATKEYWORD"])); [|now left].
      now apply validate_any_well_formed.
Qed.

Lemma for_each_recovered {A} (body : A -> result unit) l :
  Forall (fun x => recovered (body x)) l -> recovered (for_each body l).
Proof.
  intros Hall. induction Hall as [|x xs Hx _ IH]; cbn; [exact I|].
  destruct (body x) as [[]|e]; cbn; [exact IH | exact Hx].
Qed.

Lemma validate_any_recovered token context :
  well_formed token -> recovered (validate_any token context).
Proof.
  intros H. destruct (validate_any_well_formed token context H) as [->|[e ->]]; exact I.
Qed.

Lemma validate_block_recovered tokens context :
  Forall well_formed tokens -> recovered (validate_block tokens context).
Proof.
  intros H. apply for_each_recovered.
  eapply Forall_impl; [|exact H]. intros t Ht.
  destruct (validate_block_token_well_formed t context Ht) as [->|[e ->]]; exact I.
Qed.

Lemma value_check_recovered t :
  well_formed t ->
  recovered
    (if tok_type t =? "{" then
       block <- tok_content t ;; validate_block block "property value"
     else validate_any t "property value").
Proof.
  intros Hwf. destruct (tok_type t =? "{") eqn:Hb.
  - inversion Hwf as [ty ? ? ? ? Hty | ty ? ? content ? ? _ Hall]; subst.
    + exfalso. apply Hty. cbn in Hb. apply String.eqb_eq in Hb. subst. simpl. auto.
    + cbn. now apply validate_block_recovered.
  - now apply validate_any_recovered.
Qed.

Lemma parse_value_loop_recovered tokens :
  forall content,
    Forall well_formed tokens -> recovered (parse_value_loop content tokens).
Proof.
  induction tokens as [|t ts IH]; intros content Hall; [exact I|].
  inversion Hall as [|? ? Ht Hts]; subst.
  cbn [parse_value_loop].
  destruct (truthy content || negb (tok_type t =? "S")); [|now apply IH].
  pose proof (value_check_recovered t Ht) as Hcheck.
  destruct (if tok_type t =? "{" then _ else _) as [[]|e]; cbn [bind].
  - now apply IH.
  - exact Hcheck.
Qed.

Lemma parse_value_recovered tokens :
  Forall well_formed tokens -> recovered (parse_value tokens).
Proof.
  intros H. unfold parse_value.
  pose proof (parse_value_loop_recovered tokens [] H) as Hloop.
  destruct (parse_value_loop [] tokens); [exact I | exact Hloop].
Qed.

Lemma find_colon_recovered tokens :
  forall token,
    token <> None \/ tokens <> [] ->
    recovered (find_colon token tokens).
Proof.
  induction tokens as [|t ts IH]; intros token Hbound.
  - destruct token; [exact I|]. destruct Hbound; congruence.
  - cbn [find_colon].
    destruct (tok_type t =? ":"); [exact I|].
    destruct (negb (tok_type t =? "S")); [exact I|].
    apply IH. left. discriminate.
Qed.

Lemma find_colon_rest tokens :
  forall token colon rest,
    find_colon token tokens = Ok (colon, rest) ->
    exists before, tokens = before ++ colon :: rest.
Proof.
  induction tokens as [|t ts IH]; intros token colon rest H.
  - cbn in H. destruct token; discriminate.
  - cbn [find_colon] in H.
    destruct (tok_type t =? ":").
    + injection H as <- <-. now exists [].
    + destruct (negb (tok_type t =? "S")); [discriminate|].
      destruct (IH _ _ _ H) as [before ->]. now exists (t :: before).
Qed.

(** On tokens as the tokenizer groups them, the only segments on which
    [parse_declaration] raises something else than a ParseError are
    the empty one and the one made of a lone identifier. *)
Lemma parse_declaration_recovered part :
  Forall well_formed part ->
  part <> [] ->
  ~ lone_identifier part ->
  recovered (parse_declaration part).
Proof.
  intros Hwf Hne Hlone.
  destruct part as [|name_token tokens]; [congruence|].
  inversion Hwf as [|? ? Hname Htokens]; subst.
  cbn [parse_declaration].
  destruct (tok_type name_token =? "IDENT") eqn:Hident; [|exact I].
  apply String.eqb_eq in Hident.
  destruct name_token as [ty css v l c | ty cs ce content l c].
  2:{ inversion Hname as [|? ? ? ? ? ? Hty _]; subst. cbn in Hident. subst ty.
      simpl in Hty. intuition discriminate. }
  cbn [tok_value bind].
  assert (Hrest : tokens <> []).
  { intros ->. apply Hlone. now exists (Token ty css v l c). }
  pose proof (find_colon_recovered tokens None (or_intror Hrest)) as Hcolon.
  destruct (find_colon None tokens) as [[colon rest]|e] eqn:Hfind; cbn [bind];
    [|exact Hcolon].
  assert (Hwf_rest : Forall well_formed rest).
  { destruct (find_colon_rest _ _ _ _ Hfind) as [before ->].
    apply Forall_app in Htokens. destruct Htokens as [_ Hc].
    now inversion Hc. }
  pose proof (parse_value_recovered rest Hwf_rest) as Hvalue.
  destruct (parse_value rest) as [[|first value]|e]; cbn [bind]; try exact I.
  exact Hvalue.
Qed.

Lemma parse_declaration_lone_identifier css v l c :
  parse_declaration [Token "IDENT" css v l c] = Raise (UnboundLocalError "token").
Proof. reflexivity. Qed.

Lemma segments_recovered tokens :
  Forall well_formed tokens ->
  Forall (fun segment => ~ lone_identifier segment) (segments tokens) ->
  Forall (fun segment => recovered (parse_declaration segment)) (segments tokens).
Proof.
  intros Hwf Hlone. rewrite Forall_forall in *. intros segment Hin.
  destruct (segments_shape tokens segment Hin) as [[first [others [-> _]]] Hsub].
  apply parse_declaration_recovered.
  - rewrite Forall_forall. intros t Ht. apply Hwf. now apply Hsub.
  - discriminate.
  - now apply Hlone.
Qed.

Lemma split_parts_blank tokens :
  forall parts,
    Forall (fun t => tok_type t = ";" \/ tok_type t = "S") tokens ->
    split_parts parts [] tokens = parts.
Proof.
  induction tokens as [|t ts IH]; intros parts Hall; [reflexivity|].
  inversion Hall as [|? ? Ht Hts]; subst.
  cbn [split_parts truthy orb].
  destruct Ht as [-> | ->]; cbn; now apply IH.
Qed.

(** Scenario C: [a { color: red;; invalid: ; font: 12px }]. *)
Definition scenario_C_block : list token :=
  [Token "S" " " " " 1 4;
   Token "IDENT" "color" "color" 1 5; Token ":" ":" ":" 1 10;
   Token "S" " " " " 1 11; Token "IDENT" "red" "red" 1 12;
   Token ";" ";" ";" 1 15; Token ";" ";" ";" 1 16; Token "S" " " " " 1 17;
   Token "IDENT" "invalid" "invalid" 1 18; Token ":" ":" ":" 1 25;
   Token "S" " " " " 1 26; Token ";" ";" ";" 1 27; Token "S" " " " " 1 28;
   Token "IDENT" "font" "font" 1 29; Token ":" ":" ":" 1 33;
   Token "S" " " " " 1 34; Token "DIMENSION" "12px" "12" 1 35;
   Token "S" " " " " 1 39].

Definition scenario_C : token_iter :=
  [Token "IDENT" "a" "a" 1 1; Token "S" " " " " 1 2;
   ContainerToken "{" "{" "}" scenario_C_block 1 3].

Definition scenario_C_declarations : list Declaration.t :=
  [Declaration.mk "color"
     (ContainerToken "VALUES" "" "" [Token "IDENT" "red" "red" 1 12] 1 12) 1 5;
   Declaration.mk "font"
     (ContainerToken "VALUES" "" "" [Token "DIMENSION" "12px" "12" 1 35] 1 35)
     1 29].

Definition scenario_C_errors : list ParseError.t :=
  [ParseError.mk (OnToken (Token ":" ":" ":" 1 25)) "expected a property value"].

(** [parse_declaration_list] cuts its input at the top-level [;]
    tokens: its parts are the segments between separators, without
    their leading white space, the empty ones left out; they are made
    of top-level tokens only, so that no container is cut.  A list of
    separators and white space gives no declaration and no error.
    Each part is parsed on its own: a declaration is appended to the
    declarations, a ParseError to the errors, and the loop goes on
    with the next part; when every part gives one or the other, the
    call returns the declarations and the errors of the parts, in
    order, which is the case for tokens as the tokenizer groups them
    unless a part is a lone identifier; the call never raises a
    ParseError, only what a part raises that is none.  On scenario C
    the stylesheet
    has one ruleset with the declarations [color] and [font], and the
    one error "expected a property value". *)
Lemma parse_declaration_list_recovery (tokens : list token) :
  (split_parts [] [] tokens = segments tokens /\
   parse_declaration_list tokens = parse_parts [] [] (segments tokens)) /\
  (forall segment,
      In segment (segments tokens) ->
      (exists first others, segment = first :: others /\ tok_type first <> "S") /\
      (forall t, In t segment -> In t tokens /\ tok_type t <> ";")) /\
  (Forall (fun t => tok_type t = ";" \/ tok_type t = "S") tokens ->
   parse_declaration_list tokens = Ok ([], [])) /\
  (forall declarations errors part parts,
      (forall d,
          parse_declaration part = Ok d ->
          parse_parts declarations errors (part :: parts) =
          parse_parts (declarations ++ [d]) errors parts) /\
      (forall e,
          parse_declaration part = Raise (EParseError e) ->
          parse_parts declarations errors (part :: parts) =
          parse_parts declarations (errors ++ [e]) parts)) /\
  (Forall (fun segment => recovered (parse_declaration segment)) (segments tokens) ->
   parse_declaration_list tokens =
   Ok (outcome_declarations (map parse_declaration (segments tokens)),
       outcome_errors (map parse_declaration (segments tokens)))) /\
  (Forall well_formed tokens ->
   Forall (fun segment => ~ lone_identifier segment) (segments tokens) ->
   Forall (fun segment => recovered (parse_declaration segment)) (segments tokens)) /\
  (forall x,
      parse_declaration_list tokens = Raise x ->
      (forall e, x <> EParseError e) /\
      exists segment,
        In segment (segments tokens) /\ parse_declaration segment = Raise x /\
        ~ recovered (parse_declaration segment)) /\
  parse_declaration_list scenario_C_block =
    Ok (scenario_C_declarations, scenario_C_errors) /\
  parse_stylesheet scenario_C =
    Ok (Stylesheet.mk
          [IsRuleSet
             (RuleSet.mk
                (ContainerToken "SELECTOR" "" ""
                   [Token "IDENT" "a" "a" 1 1; Token "S" " " " " 1 2] 1 1)
                scenario_C_declarations 1 1)]
          scenario_C_errors).
Proof.
  split.
  { split; [apply split_parts_segments|].
    unfold parse_declaration_list. now rewrite split_parts_segments. }
  split; [apply segments_shape|].
  split.
  { intros Hblank. unfold parse_declaration_list.
    now rewrite split_parts_blank. }
  split.
  { intros declarations errors part parts. split.
    - intros d Hd. cbn [parse_parts]. now rewrite Hd.
    - intros e He. cbn [parse_parts]. now rewrite He. }
  split.
  { intros Hall. unfold parse_declaration_list.
    rewrite split_parts_segments. now rewrite parse_parts_outcomes. }
  split; [apply segments_recovered|].
  split.
  { intros x. unfold parse_declaration_list. rewrite split_parts_segments.
    intros Hraise. split; [|now apply parse_parts_raise in Hraise].
    intros e ->. now apply parse_parts_never_parse_error in Hraise. }
  split; vm_compute; reflexivity.
Qed.

(** [invalid: ; color; a: b]: a declaration without a value, a lone
    identifier, and a declaration. *)
Definition scenario_lone_identifier : list token :=
  [Token "IDENT" "invalid" "invalid" 1 1; Token ":" ":" ":" 1 8;
   Token "S" " " " " 1 9; Token ";" ";" ";" 1 10; Token "S" " " " " 1 11;
   Token "IDENT" "color" "color" 1 12; Token ";" ";" ";" 1 17;
   Token "S" " " " " 1 18; Token "IDENT" "a" "a" 1 19; Token ":" ":" ":" 1 20;
   Token "S" " " " " 1 21; Token "IDENT" "b" "b" 1 22].

(** A token of type IDENT, as the tokenizer groups tokens, is no
    container. *)
Lemma well_formed_identifier t :
  well_formed t -> tok_type t = "IDENT" ->
  exists css v l c, t = Token "IDENT" css v l c.
Proof.
  clear unicode_lower.
  intros Hwf Hty.
  destruct t as [ty css v l c | ty cs ce content l c]; cbn in Hty; subst ty.
  - eauto.
  - inversion Hwf as [|? ? ? ? ? ? Hgroup _]; subst.
    simpl in Hgroup. intuition discriminate.
Qed.

(** The loop over the parts stops at the first lone identifier. *)
Lemma parse_parts_lone_identifier parts :
  forall declarations errors,
    Forall (fun part => Forall well_formed part /\ part <> []) parts ->
    Exists lone_identifier parts ->
    parse_parts declarations errors parts = Raise (UnboundLocalError "token").
Proof.
  induction parts as [|part parts IH]; intros declarations errors Hwf Hlone.
  - inversion Hlone.
  - inversion Hwf as [|? ? [Hpart Hne] Hparts]; subst.
    cbn [parse_parts].
    assert (Hcases : lone_identifier part \/
                     (~ lone_identifier part /\ Exists lone_identifier parts)).
    { inversion Hlone as [? ? H|? ? H]; subst; [now left|].
      destruct part as [|t [|t' others]].
      - congruence.
      - destruct (string_dec (tok_type t) "IDENT") as [Hty|Hty].
        + left. now exists t.
        + right. split; [|exact H]. intros [t0 [[= <-] Ht0]]. contradiction.
      - right. split; [|exact H]. intros [t0 [[=] _]]. }
    destruct Hcases as [[t [-> Hty]]|[Hnot Htail]].
    + inversion Hpart as [|? ? Ht _]; subst.
      destruct (well_formed_identifier t Ht Hty) as [css [v [l [c ->]]]].
      reflexivity.
    + pose proof (parse_declaration_recovered part Hpart Hne Hnot) as Hrec.
      destruct (parse_declaration part) as [d|[e| | | |]]; cbn in Hrec;
        try contradiction; now apply IH.
Qed.

(** C6: the recovery between declarations stops at a part that is a
    lone identifier.  In [invalid: ; color; a: b] the first part fails
    with the ParseError "expected a property value" and the third is a
    declaration, but the second raises the UnboundLocalError of
    [parse_declaration], which [except ParseError] does not catch:
    [parse_declaration_list] raises it, so that the error of the first
    part is in no list that is returned and the third part is never
    parsed.  The same goes for a style attribute and for the block of
    a rule set in a stylesheet.  For tokens as the tokenizer groups
    them, [parse_declaration_list] raises this exception as soon as
    one part is a lone identifier, and returns the declarations and
    the errors of its parts when none is. *)
Theorem parse_declaration_list_aborts :
  let no_value := [Token "IDENT" "invalid" "invalid" 1 1; Token ":" ":" ":" 1 8;
                   Token "S" " " " " 1 9] in
  let lone := [Token "IDENT" "color" "color" 1 12] in
  let declaration := [Token "IDENT" "a" "a" 1 19; Token ":" ":" ":" 1 20;
                      Token "S" " " " " 1 21; Token "IDENT" "b" "b" 1 22] in
  (segments scenario_lone_identifier = [no_value; lone; declaration] /\
   parse_declaration no_value =
     parse_error (OnToken (Token ":" ":" ":" 1 8)) "expected a property value" /\
   parse_declaration lone = Raise (UnboundLocalError "token") /\
   parse_declaration declaration =
     Ok (Declaration.mk "a"
           (ContainerToken "VALUES" "" "" [Token "IDENT" "b" "b" 1 22] 1 22)
           1 19) /\
   parse_declaration_list scenario_lone_identifier =
     Raise (UnboundLocalError "token") /\
   parse_style_attr scenario_lone_identifier =
     Raise (UnboundLocalError "token") /\
   parse_stylesheet
     [Token "IDENT" "p" "p" 1 1;
      ContainerToken "{" "{" "}" scenario_lone_identifier 1 2] =
     Raise (UnboundLocalError "token")) /\
  (forall tokens,
      Forall well_formed tokens ->
      (Exists lone_identifier (segments tokens) ->
       parse_declaration_list tokens = Raise (UnboundLocalError "token")) /\
      (~ Exists lone_identifier (segments tokens) ->
       parse_declaration_list tokens =
       Ok (outcome_declarations (map parse_declaration (segments tokens)),
           outcome_errors (map parse_declaration (segments tokens))))).
Proof.
  intros no_value lone declaration.
  split; [repeat split; vm_compute; reflexivity|].
  intros tokens Hwf.
  unfold parse_declaration_list. rewrite split_parts_segments. split.
  - apply parse_parts_lone_identifier.
    rewrite Forall_forall. intros segment Hin.
    destruct (segments_shape tokens segment Hin) as [[first [others [-> _]]] Hsub].
    split; [|discriminate].
    rewrite Forall_forall. intros t Ht.
    rewrite Forall_forall in Hwf. apply Hwf. now apply Hsub.
  - intros Hnone. apply parse_parts_outcomes.
    apply segments_recovered; [exact Hwf|].
    rewrite Forall_forall. intros segment Hin Hlone.
    apply Hnone. apply Exists_exists. eauto.
Qed.

(** ** Rule sets *)

(** When [parse_ruleset] starts on the brace block itself, there is no
    selector token: the call takes nothing more from the iterator and
    never raises a ParseError.  For a block of tokens as the tokenizer
    groups them, none of whose parts is a lone identifier, it returns
    the rule set whose selector is the empty SELECTOR container at the
    position of the block, with the declarations and the errors of
    [parse_declaration_list] on the content of the block and no other
    error, and the driver appends that rule set and these errors.  The
    same holds whenever [parse_declaration_list] returns. *)
Lemma parse_ruleset_empty_selector
    (cs ce : string) (content : list token) (l c : Z) (tokens : token_iter) :
  let block := ContainerToken "{" cs ce content l c in
  let selector := ContainerToken "SELECTOR" "" "" [] l c in
  let outcomes := map parse_declaration (segments content) in
  (forall e, fst (parse_ruleset block tokens) <> Raise (EParseError e)) /\
  snd (parse_ruleset block tokens) = tokens /\
  (Forall well_formed content ->
   Forall (fun segment => ~ lone_identifier segment) (segments content) ->
   parse_ruleset block tokens =
     (Ok (RuleSet.mk selector (outcome_declarations outcomes) l c,
          outcome_errors outcomes), tokens) /\
   forall methods rules errors,
     parse_rules_loop methods (block :: tokens) rules errors =
     parse_rules_loop methods tokens
       (rules ++ [IsRuleSet (RuleSet.mk selector (outcome_declarations outcomes) l c)])
       (errors ++ outcome_errors outcomes)) /\
  (forall declarations errors,
      parse_declaration_list content = Ok (declarations, errors) ->
      parse_ruleset block tokens =
        (Ok (RuleSet.mk selector declarations l c, errors), tokens)).
Proof.
  intros block selector outcomes.
  assert (Heq : parse_ruleset block tokens =
                (parsed <- parse_declaration_list content ;;
                 let '(declarations, errors) := parsed in
                 Ok (RuleSet.mk selector declarations l c, errors), tokens))
    by reflexivity.
  assert (Hreturn : forall declarations errors,
             parse_declaration_list content = Ok (declarations, errors) ->
             parse_ruleset block tokens =
               (Ok (RuleSet.mk selector declarations l c, errors), tokens)).
  { intros declarations errors Hlist. rewrite Heq, Hlist. reflexivity. }
  split.
  { intros e. rewrite Heq. cbn [fst]. unfold parse_declaration_list.
    pose proof (parse_parts_never_parse_error (split_parts [] [] content) [] [] e) as Hne.
    destruct (parse_parts [] [] (split_parts [] [] content)) as [[ds es]|e'];
      cbn [bind]; [discriminate|].
    intros [= ->]. now apply Hne. }
  split; [now rewrite Heq|].
  split; [|exact Hreturn].
  intros Hwf Hlone.
  pose proof (segments_recovered content Hwf Hlone) as Hrec.
  assert (Hlist : parse_declaration_list content =
                  Ok (outcome_declarations outcomes, outcome_errors outcomes)).
  { unfold parse_declaration_list. rewrite split_parts_segments.
    now rewrite parse_parts_outcomes by exact Hrec. }
  pose proof (Hreturn _ _ Hlist) as Hrule.
  split; [exact Hrule|].
  intros methods rules errors.
  rewrite parse_rules_loop_cons. unfold parse_statement.
  change (tok_type block) with "{".
  cbn [in_tuple existsb String.eqb Ascii.eqb Bool.eqb orb negb].
  rewrite Hrule. reflexivity.
Qed.

(** ** Exceptions that escape *)

(** C1: a declaration made of a lone identifier: the loop that looks
    for the colon never runs, its [else] branch reads the loop variable
    [token], which was never assigned, and the UnboundLocalError that
    follows is no ParseError: it goes through every [except] up to the
    caller of [parse_style_attr] and [parse_stylesheet], for a style
    attribute such as [color] and for stylesheets such as [a{color}]
    and [{color}]. *)
Theorem unbound_token_escapes
    (css v selector_css selector_v cs ce : string) (l c sl sc bl bc : Z) :
  let declaration := [Token "IDENT" css v l c] in
  let selector := Token "IDENT" selector_css selector_v sl sc in
  let block := ContainerToken "{" cs ce declaration bl bc in
  parse_declaration declaration = Raise (UnboundLocalError "token") /\
  parse_style_attr declaration = Raise (UnboundLocalError "token") /\
  parse_stylesheet [selector; block] = Raise (UnboundLocalError "token") /\
  parse_stylesheet [block] = Raise (UnboundLocalError "token").
Proof.
  intros declaration selector block.
  split; [reflexivity|]. split; [reflexivity|].
  unfold parse_stylesheet, parse_rules.
  split; rewrite parse_rules_loop_cons; reflexivity.
Qed.

(** C9: a brace block reached with no selector token before it,
    whose content is a lone identifier, as in [{color}]:
    [parse_ruleset] builds the empty SELECTOR container and then
    raises the UnboundLocalError of [parse_declaration] instead of
    returning a rule set, and so does [parse_stylesheet]. *)
Theorem parse_ruleset_block_escapes
    (cs ce css v : string) (l c bl bc : Z) (tokens : token_iter) :
  let block := ContainerToken "{" cs ce [Token "IDENT" css v l c] bl bc in
  parse_ruleset block tokens = (Raise (UnboundLocalError "token"), tokens) /\
  parse_rules (block :: tokens) = Raise (UnboundLocalError "token").
Proof.
  intros block. split; [reflexivity|].
  unfold parse_rules. rewrite parse_rules_loop_cons. reflexivity.
Qed.

(** ** At-rules *)

(** A token that ends the head of an at-rule. *)
Definition ends_rule (t : token) : Prop :=
  tok_type t = "{" \/ tok_type t = ";".

(** The type of a token is the name of a kind of token: it is not the
    empty string, nor the two characters of the test [in '{;']. *)
Definition named (t : token) : Prop :=
  tok_type t <> "" /\ tok_type t <> "{;".

Lemma str_in_brace_semicolon ty :
  str_in ty "{;" = true <-> ty = "" \/ ty = "{" \/ ty = ";" \/ ty = "{;".
Proof.
  split.
  - destruct ty as [|a [|b [|c s]]]; cbn; auto.
    + destruct (ascii_dec a "{") as [->|]; [auto|].
      destruct (ascii_dec a ";") as [->|]; [auto | discriminate].
    + destruct (ascii_dec a "{") as [->|].
      * destruct (ascii_dec b ";") as [->|]; [auto|].
        destruct (ascii_dec "{" ";"); discriminate.
      * destruct (ascii_dec a ";"); discriminate.
    + destruct (ascii_dec a "{") as [->|].
      * destruct (ascii_dec b ";") as [->|]; [discriminate|].
        destruct (ascii_dec "{" ";"); discriminate.
      * destruct (ascii_dec a ";"); discriminate.
  - intros [->|[->|[->| ->]]]; reflexivity.
Qed.

Lemma ends_rule_test t : ends_rule t -> str_in (tok_type t) "{;" = true.
Proof. intros H. apply str_in_brace_semicolon. destruct H; auto. Qed.

Lemma no_end_test t :
  named t -> ~ ends_rule t -> str_in (tok_type t) "{;" = false.
Proof.
  intros [H1 H2] Hend.
  destruct (str_in (tok_type t) "{;") eqn:H; [|reflexivity].
  apply str_in_brace_semicolon in H. unfold ends_rule in Hend. tauto.
Qed.

Lemma is_S_no_end t : is_S t -> named t /\ ~ ends_rule t.
Proof.
  unfold is_S, named, ends_rule. intros ->.
  repeat split; try discriminate. intros [|]; discriminate.
Qed.

Lemma last_cons {A} (x d : A) l : last (x :: l) d = last l x.
Proof.
  revert x d. induction l as [|y l IH]; intros x d; [reflexivity|].
  change (last (x :: y :: l) d) with (last (y :: l) d).
  now rewrite !IH.
Qed.

Lemma last_append {A} (l1 l2 : list A) d :
  last (l1 ++ l2) d = last l2 (last l1 d).
Proof.
  revert d. induction l1 as [|x l1 IH]; intros d; [reflexivity|].
  cbn [app]. now rewrite !last_cons, IH.
Qed.

Lemma read_at_rule_loop_skip kw kwt ws :
  forall token rest,
    Forall is_S ws ->
    read_at_rule_loop kw kwt [] token (ws ++ rest) =
    read_at_rule_loop kw kwt [] (last ws token) rest.
Proof.
  induction ws as [|t ts IH]; intros token rest Hws; [reflexivity|].
  inversion Hws as [|? ? Ht Hts]; subst.
  cbn [app read_at_rule_loop].
  destruct (is_S_no_end t Ht) as [Hn He]. rewrite (no_end_test t Hn He).
  rewrite Ht. cbn [truthy String.eqb Ascii.eqb Bool.eqb negb orb].
  rewrite IH by exact Hts.
  now rewrite last_cons.
Qed.

Lemma read_at_rule_loop_keep kw kwt kept :
  forall head token rest,
    truthy head = true ->
    Forall (fun t => named t /\ ~ ends_rule t) kept ->
    read_at_rule_loop kw kwt head token (kept ++ rest) =
    read_at_rule_loop kw kwt (head ++ kept) (last kept token) rest.
Proof.
  induction kept as [|t ts IH]; intros head token rest Hhead Hkept.
  - cbn. now rewrite app_nil_r.
  - inversion Hkept as [|? ? [Hn He] Hts]; subst.
    cbn [app read_at_rule_loop].
    rewrite (no_end_test t Hn He), Hhead. cbn [orb].
    rewrite IH; [|now destruct head | exact Hts].
    rewrite <- app_assoc. cbn [app]. now rewrite last_cons.
Qed.

Lemma read_at_rule_loop_head kw kwt ws kept token rest :
  Forall is_S ws ->
  Forall (fun t => named t /\ ~ ends_rule t) kept ->
  match kept with
  | [] => True
  | first :: _ => tok_type first <> "S"
  end ->
  read_at_rule_loop kw kwt [] token (ws ++ kept ++ rest) =
  read_at_rule_loop kw kwt kept (last (ws ++ kept) token) rest.
Proof.
  intros Hws Hkept Hfirst.
  rewrite read_at_rule_loop_skip by exact Hws.
  destruct kept as [|first more].
  - cbn [app]. now rewrite app_nil_r.
  - inversion Hkept as [|? ? [Hn He] Hmore]; subst.
    cbn [app read_at_rule_loop].
    rewrite (no_end_test first Hn He).
    apply String.eqb_neq in Hfirst. rewrite Hfirst. cbn [truthy negb orb app].
    rewrite read_at_rule_loop_keep by (auto; reflexivity).
    cbn [app]. f_equal.
    now rewrite last_append, !last_cons.
Qed.

Lemma for_each_fails {A} (body : A -> result unit) l :
  ~ Forall (fun x => body x = Ok tt) l -> exists e, for_each body l = Raise e.
Proof.
  intros H. destruct (for_each body l) as [[]|e] eqn:Heq; [|eauto].
  exfalso. apply H. now apply for_each_ok.
Qed.

Lemma validate_all_ok context tokens :
  for_each (fun t => validate_any t context) tokens = Ok tt <->
  Forall valid_any tokens.
Proof.
  rewrite for_each_ok, !Forall_forall. split; intros H x Hx.
  - apply (validate_any_ok_iff x context). now apply H.
  - apply (validate_any_ok_iff x context). now apply H.
Qed.

Lemma validate_all_recovered context tokens :
  Forall well_formed tokens ->
  recovered (for_each (fun t => validate_any t context) tokens).
Proof.
  intros H. apply for_each_recovered.
  eapply Forall_impl; [|exact H]. intros t Ht. now apply validate_any_recovered.
Qed.

(** What [read_at_rule] does on a stream cut into the white space
    after the at-keyword, the tokens kept as head, and the token that
    ends the head, or on a stream that ends before such a token. *)
Lemma read_at_rule_shape
    (ty css v : string) (l c : Z) (ws kept : list token) :
  let at_keyword_token := Token ty css v l c in
  Forall is_S ws ->
  Forall (fun t => named t /\ ~ ends_rule t) kept ->
  match kept with
  | [] => True
  | first :: _ => tok_type first <> "S"
  end ->
  (forall stop after,
      ends_rule stop ->
      let read := read_at_rule at_keyword_token (ws ++ kept ++ stop :: after) in
      snd read = after /\
      (Forall valid_any kept ->
       (tok_type stop = "{" ->
        fst read = Ok (AtRule.mk (lower v) kept (Some stop) l c)) /\
       (tok_type stop = ";" ->
        fst read = Ok (AtRule.mk (lower v) kept None l c))) /\
      (~ Forall valid_any kept -> exists e, fst read = Raise e) /\
      (Forall well_formed kept -> ~ Forall valid_any kept ->
       exists e, fst read = Raise (EParseError e))) /\
  read_at_rule at_keyword_token (ws ++ kept) =
  (parse_error (OnToken (last (ws ++ kept) at_keyword_token)) "incomplete at-rule",
   []).
Proof.
  intros at_keyword_token Hws Hkept Hfirst.
  unfold read_at_rule. cbn [tok_value at_keyword_token].
  split.
  - intros stop after Hstop. cbv zeta.
    rewrite read_at_rule_loop_head by assumption.
    cbn [read_at_rule_loop]. rewrite (ends_rule_test stop Hstop). cbn [fst snd].
    split; [reflexivity|].
    split.
    { intros Hvalid.
      rewrite (proj2 (validate_all_ok "at-rule head" kept) Hvalid). cbn [bind].
      split; intros ->; reflexivity. }
    split.
    { intros Hinvalid.
      destruct (for_each_fails (fun t => validate_any t "at-rule head") kept)
        as [e He].
      - intros H. apply Hinvalid. apply (validate_all_ok "at-rule head").
        apply for_each_ok. exact H.
      - exists e. now rewrite He. }
    intros Hwf Hinvalid.
    pose proof (validate_all_recovered "at-rule head" kept Hwf) as Hrec.
    destruct (for_each (fun t => validate_any t "at-rule head") kept)
      as [[]|e] eqn:He.
    + exfalso. apply Hinvalid. now apply (validate_all_ok "at-rule head").
    + destruct e; try contradiction. cbn [bind]. eauto.
  - rewrite <- (app_nil_r kept) at 1.
    rewrite read_at_rule_loop_head by assumption.
    reflexivity.
Qed.


Lemma ends_rule_dec t : {ends_rule t} + {~ ends_rule t}.
Proof.
  unfold ends_rule.
  destruct (string_dec (tok_type t) "{"); [left; auto|].
  destruct (string_dec (tok_type t) ";"); [left; auto|].
  right. intros [|]; contradiction.
Qed.

Lemma first_end_of_head tokens :
  (exists before stop after,
      tokens = before ++ stop :: after /\
      Forall (fun t => ~ ends_rule t) before /\ ends_rule stop) \/
  Forall (fun t => ~ ends_rule t) tokens.
Proof.
  induction tokens as [|t ts IH]; [right; constructor|].
  destruct (ends_rule_dec t) as [Ht|Ht].
  - left. exists [], t, ts. repeat split; [constructor | exact Ht].
  - destruct IH as [[before [stop [after [-> [Hb Hs]]]]]|Hall].
    + left. exists (t :: before), stop, after.
      repeat split; [now constructor | exact Hs].
    + right. now constructor.
Qed.

Lemma leading_white_space tokens :
  exists ws kept,
    tokens = ws ++ kept /\ Forall is_S ws /\
    match kept with
    | [] => True
    | first :: _ => tok_type first <> "S"
    end.
Proof.
  induction tokens as [|t ts IH]; [exists [], []; repeat split; constructor|].
  destruct (string_dec (tok_type t) "S") as [Ht|Ht].
  - destruct IH as [ws [kept [-> [Hws Hk]]]].
    exists (t :: ws), kept. repeat split; [now constructor | exact Hk].
  - exists [], (t :: ts). repeat split; [constructor | exact Ht].
Qed.

(** C7: [read_at_rule] reads up to the first opening brace block or
    [;].  The white space that follows the at-keyword is dropped, the
    tokens from the first other token on are the head, white space
    included.  The rest of the iterator is what follows the brace
    block or the [;].  When every head token is an "any", the at-rule
    is returned, with the block as body after a brace and no body
    after a [;]; when one is not, the whole at-rule fails, with a
    ParseError for tokens as the tokenizer groups them.  When the
    input ends before a brace block or a [;], the call fails with
    "incomplete at-rule" about the last token read. *)
Theorem read_at_rule_head
    (ty css v : string) (l c : Z) (tokens : token_iter) :
  let at_keyword_token := Token ty css v l c in
  let read := read_at_rule at_keyword_token tokens in
  Forall named tokens ->
  exists ws kept,
    Forall is_S ws /\
    Forall (fun t => ~ ends_rule t) kept /\
    match kept with
    | [] => True
    | first :: _ => tok_type first <> "S"
    end /\
    ((exists stop after,
         tokens = ws ++ kept ++ stop :: after /\
         ends_rule stop /\
         snd read = after /\
         (Forall valid_any kept ->
          (tok_type stop = "{" ->
           fst read = Ok (AtRule.mk (lower v) kept (Some stop) l c)) /\
          (tok_type stop = ";" ->
           fst read = Ok (AtRule.mk (lower v) kept None l c))) /\
         (~ Forall valid_any kept -> exists e, fst read = Raise e) /\
         (Forall well_formed kept -> ~ Forall valid_any kept ->
          exists e, fst read = Raise (EParseError e))) \/
     (tokens = ws ++ kept /\
      read =
      (parse_error (OnToken (last tokens at_keyword_token)) "incomplete at-rule",
       []))).
Proof.
  intros at_keyword_token read Hnamed. subst read.
  assert (Hkeep : forall kept,
             Forall named kept -> Forall (fun t => ~ ends_rule t) kept ->
             Forall (fun t => named t /\ ~ ends_rule t) kept).
  { intros kept H1 H2. rewrite Forall_forall in *. auto. }
  destruct (first_end_of_head tokens)
    as [[before [stop [after [Htokens [Hbefore Hstop]]]]]|Hnone].
  - destruct (leading_white_space before) as [ws [kept [-> [Hws Hfirst]]]].
    apply Forall_app in Hbefore. destruct Hbefore as [_ Hkept].
    assert (Hk : Forall named kept).
    { rewrite Htokens in Hnamed. apply Forall_app in Hnamed.
      destruct Hnamed as [Hn _]. apply Forall_app in Hn. tauto. }
    exists ws, kept. repeat split; try assumption.
    left. exists stop, after.
    rewrite <- app_assoc in Htokens.
    split; [exact Htokens|]. split; [exact Hstop|].
    rewrite Htokens.
    exact (proj1 (read_at_rule_shape ty css v l c ws kept Hws
                    (Hkeep kept Hk Hkept) Hfirst) stop after Hstop).
  - destruct (leading_white_space tokens) as [ws [kept [-> [Hws Hfirst]]]].
    assert (Hkept : Forall (fun t => ~ ends_rule t) kept).
    { apply Forall_app in Hnone. tauto. }
    assert (Hk : Forall named kept).
    { apply Forall_app in Hnamed. tauto. }
    exists ws, kept. repeat split; try assumption.
    right. split; [reflexivity|].
    exact (proj2 (read_at_rule_shape ty css v l c ws kept Hws
                    (Hkeep kept Hk Hkept) Hfirst)).
Qed.

(** ** The at-keyword of a rule *)

Lemma read_at_rule_loop_keyword kw kwt tokens :
  forall head token rule rest,
    read_at_rule_loop kw kwt head token tokens = (Ok rule, rest) ->
    AtRule.at_keyword rule = kw /\
    AtRule.line rule = tok_line kwt /\ AtRule.column rule = tok_column kwt.
Proof.
  induction tokens as [|t ts IH]; intros head token rule rest H.
  - cbn in H. discriminate.
  - cbn [read_at_rule_loop] in H.
    destruct (str_in (tok_type t) "{;").
    + destruct (for_each (fun head_token => validate_any head_token "at-rule head") head)
        as [[]|e]; cbn [bind] in H; [|discriminate].
      injection H as <- _. auto.
    + destruct (truthy head || negb (tok_type t =? "S")); eapply IH; exact H.
Qed.

(** [lower] on the two kinds of strings. *)
Lemma lower_of_ascii s : is_ascii s = true -> lower s = ascii_lower s.
Proof. intros H. unfold lower. now rewrite H. Qed.

Lemma lower_of_unicode s : is_ascii s = false -> lower s = unicode_lower s.
Proof. intros H. unfold lower. now rewrite H. Qed.







(** ** The driver loop *)

(** The tokens after the first one that passes the test; none when no
    token passes it. *)
Fixpoint rest_after (test : token -> bool) (tokens : list token) : list token :=
  match tokens with
  | [] => []
  | t :: ts => if test t then ts else rest_after test ts
  end.

(** The tests that end the head of an at-rule and a selector. *)
Definition ends_head (t : token) : bool := str_in (tok_type t) "{;".
Definition opens_block (t : token) : bool := tok_type t =? "{".

Lemma read_at_rule_loop_rest_after kw kwt tokens :
  forall head token,
    snd (read_at_rule_loop kw kwt head token tokens) = rest_after ends_head tokens.
Proof.
  induction tokens as [|t ts IH]; intros head token; [reflexivity|].
  cbn [read_at_rule_loop rest_after]. unfold ends_head at 1.
  destruct (str_in (tok_type t) "{;"); [reflexivity|].
  destruct (truthy head || negb (tok_type t =? "S")); apply IH.
Qed.

Lemma parse_ruleset_loop_rest_after first tokens :
  forall parts token,
    snd (parse_ruleset_loop first parts token tokens) = rest_after opens_block tokens.
Proof.
  induction tokens as [|t ts IH]; intros parts token; [reflexivity|].
  cbn [parse_ruleset_loop rest_after]. unfold opens_block at 1.
  destruct (tok_type t =? "{"); [reflexivity | apply IH].
Qed.

Lemma read_at_rule_parse_error token tokens e :
  fst (read_at_rule token tokens) = Raise (EParseError e) ->
  read_at_rule token tokens = (Raise (EParseError e), rest_after ends_head tokens).
Proof.
  unfold read_at_rule.
  destruct token as [ty css value l c | ty cs ce content l c];
    cbn [tok_value]; [|discriminate].
  intros H.
  rewrite <- H, <- (read_at_rule_loop_rest_after (lower value)
                      (Token ty css value l c) tokens [] (Token ty css value l c)).
  apply surjective_pairing.
Qed.

Lemma parse_ruleset_parse_error token tokens e :
  fst (parse_ruleset token tokens) = Raise (EParseError e) ->
  parse_ruleset token tokens =
  (Raise (EParseError e), rest_after opens_block (token :: tokens)).
Proof.
  unfold parse_ruleset.
  intros H. rewrite <- H, <- (parse_ruleset_loop_rest_after token (token :: tokens) [] token).
  apply surjective_pairing.
Qed.

Lemma dispatch_core rule rules errors :
  dispatch parse_at_rule_methods rule rules errors =
  match fst (parse_at_rule rule [] []) with
  | Raise e => (Raise e, (rules, errors))
  | Ok true => (Ok tt, (rules, errors))
  | Ok false =>
      (Ok tt,
       (rules,
        errors ++ [ParseError.mk (OnRule rule)
                     ("unknown at-rule: " ++ AtRule.at_keyword rule)%string]))
  end.
Proof.
  unfold parse_at_rule_methods. cbn [dispatch]. unfold parse_at_rule. cbn [fst].
  destruct (if AtRule.at_keyword rule =? "@charset" then _ else _) as [[]|e];
    reflexivity.
Qed.

Lemma parse_statement_accumulate token tokens rules errors :
  parse_statement parse_at_rule_methods token tokens rules errors =
  match parse_statement parse_at_rule_methods token tokens [] [] with
  | Ok (rest, (more_rules, more_errors)) =>
      Ok (rest, (rules ++ more_rules, errors ++ more_errors))
  | Raise e => Raise e
  end.
Proof.
  unfold parse_statement.
  destruct (negb (in_tuple (tok_type token) ["S"; "CDO"; "CDC"])).
  2:{ now rewrite !app_nil_r. }
  destruct (tok_type token =? "ATKEYWORD").
  - destruct (read_at_rule token tokens) as [[rule|e] rest].
    + rewrite !dispatch_core.
      destruct (fst (parse_at_rule rule [] [])) as [[]|[e| | | |]]; cbn;
        rewrite ?app_nil_r; reflexivity.
    + destruct e; cbn; rewrite ?app_nil_r; reflexivity.
  - destruct (parse_ruleset token tokens) as [[[rule rule_errors]|e] rest].
    + reflexivity.
    + destruct e; cbn; rewrite ?app_nil_r; reflexivity.
Qed.

(** With the methods of [CoreParser], what a run of the loop appends
    does not depend on what the lists hold when it starts. *)
Lemma parse_rules_loop_accumulate tokens :
  forall rules errors,
    parse_rules_loop parse_at_rule_methods tokens rules errors =
    match parse_rules_loop parse_at_rule_methods tokens [] [] with
    | Ok (more_rules, more_errors) =>
        Ok (rules ++ more_rules, errors ++ more_errors)
    | Raise e => Raise e
    end.
Proof.
  remember (length tokens) as n eqn:Hn. revert tokens Hn.
  induction n as [n IH] using lt_wf_ind. intros tokens Hn rules errors.
  destruct tokens as [|token tokens].
  - simp parse_rules_loop. now rewrite !app_nil_r.
  - rewrite !parse_rules_loop_cons.
    rewrite (parse_statement_accumulate token tokens rules errors).
    destruct (parse_statement parse_at_rule_methods token tokens [] [])
      as [[rest [r e]]|x] eqn:Hs; [|reflexivity].
    apply parse_statement_rest in Hs.
    assert (Hlt : length rest < n) by (subst n; cbn [length]; lia).
    rewrite (IH (length rest) Hlt rest eq_refl (rules ++ r) (errors ++ e)).
    rewrite (IH (length rest) Hlt rest eq_refl r e).
    destruct (parse_rules_loop parse_at_rule_methods rest [] []) as [[r2 e2]|x];
      [now rewrite !app_assoc | reflexivity].
Qed.

Lemma parse_statement_never_parse_error methods token tokens rules errors e :
  parse_statement methods token tokens rules errors <> Raise (EParseError e).
Proof.
  unfold parse_statement.
  destruct (negb (in_tuple (tok_type token) ["S"; "CDO"; "CDC"])); [|discriminate].
  destruct (tok_type token =? "ATKEYWORD").
  - destruct (read_at_rule token tokens) as [[rule|x] rest].
    + destruct (dispatch methods rule rules errors) as [[u|x] [rs es]];
        [discriminate | destruct x; discriminate].
    + destruct x; discriminate.
  - destruct (parse_ruleset token tokens) as [[[rule rule_errors]|x] rest];
      [discriminate | destruct x; discriminate].
Qed.

Lemma parse_rules_loop_never_parse_error methods tokens :
  forall rules errors e,
    parse_rules_loop methods tokens rules errors <> Raise (EParseError e).
Proof.
  remember (length tokens) as n eqn:Hn. revert tokens Hn.
  induction n as [n IH] using lt_wf_ind. intros tokens Hn rules errors e.
  destruct tokens as [|token tokens].
  - simp parse_rules_loop. discriminate.
  - rewrite parse_rules_loop_cons.
    pose proof (parse_statement_never_parse_error methods token tokens rules errors e)
      as Hturn.
    destruct (parse_statement methods token tokens rules errors)
      as [[rest [rs es]]|x] eqn:Hs; [|intros [= ->]; now apply Hturn].
    apply parse_statement_rest in Hs.
    apply (IH (length rest)); [subst n; cbn [length]; lia | reflexivity].
Qed.

Lemma parse_rules_loop_skipped methods skipped :
  forall rules errors,
    Forall (fun t => In (tok_type t) ["S"; "CDO"; "CDC"]) skipped ->
    parse_rules_loop methods skipped rules errors = Ok (rules, errors).
Proof.
  intros rules errors Hskipped.
  induction Hskipped as [|t ts Ht _ IH]; [now simp parse_rules_loop|].
  rewrite parse_rules_loop_cons. unfold parse_statement.
  apply in_tuple_In in Ht. rewrite Ht. cbn [negb]. exact IH.
Qed.

(** What the loop of [parse_rules] does with a turn that ends with the
    lists [rules'] and [errors'] and leaves [rest] in the iterator. *)
Lemma parse_rules_loop_turn methods token tokens rules errors rest rules' errors' :
  parse_statement methods token tokens rules errors = Ok (rest, (rules', errors')) ->
  parse_rules_loop methods (token :: tokens) rules errors =
    parse_rules_loop methods rest rules' errors' /\
  (Forall (fun t => In (tok_type t) ["S"; "CDO"; "CDC"]) rest ->
   parse_rules_loop methods (token :: tokens) rules errors = Ok (rules', errors')).
Proof.
  intros Hturn.
  assert (Hgo : parse_rules_loop methods (token :: tokens) rules errors =
                parse_rules_loop methods rest rules' errors')
    by (rewrite parse_rules_loop_cons, Hturn; reflexivity).
  split; [exact Hgo|].
  intros Hrest. rewrite Hgo. now apply parse_rules_loop_skipped.
Qed.

(** C5: when [read_at_rule] or [parse_ruleset] fails with a
    ParseError on a token that starts a rule, the turn of the loop of
    [parse_rules] ends normally: the error is appended to the errors,
    the rules are left as they are, and the iterator stands after the
    brace block or [;] that ended the failed rule (at its end, when
    the failed rule ran to the end of the input).  The loop goes on
    from there.  When only white space, CDO and CDC tokens are left,
    the call returns the rules as they were and the errors with that
    error at their end.  With the methods of [CoreParser] the call
    returns whenever the stylesheet made of the tokens that are left
    does: the rules as they were, followed by the rules of what is
    left, and the errors as they were, followed by that error and the
    errors of what is left; it raises what that stylesheet raises
    otherwise.  No ParseError ever comes out of the loop. *)
Theorem parse_rules_recovery
    (methods : list at_rule_method) (token : token) (tokens : token_iter)
    (rules : list statement) (errors : list ParseError.t) (e : ParseError.t) :
  let recorded (rest : token_iter) : Prop :=
    parse_statement methods token tokens rules errors =
      Ok (rest, (rules, errors ++ [e])) /\
    parse_rules_loop methods (token :: tokens) rules errors =
      parse_rules_loop methods rest rules (errors ++ [e]) /\
    (Forall (fun t => In (tok_type t) ["S"; "CDO"; "CDC"]) rest ->
     parse_rules_loop methods (token :: tokens) rules errors =
       Ok (rules, errors ++ [e])) /\
    parse_rules_loop parse_at_rule_methods (token :: tokens) rules errors =
      match parse_rules rest with
      | Ok (more_rules, more_errors) =>
          Ok (rules ++ more_rules, errors ++ [e] ++ more_errors)
      | Raise x => Raise x
      end in
  ~ In (tok_type token) ["S"; "CDO"; "CDC"] ->
  (tok_type token = "ATKEYWORD" ->
   fst (read_at_rule token tokens) = Raise (EParseError e) ->
   snd (read_at_rule token tokens) = rest_after ends_head tokens /\
   recorded (rest_after ends_head tokens)) /\
  (tok_type token <> "ATKEYWORD" ->
   fst (parse_ruleset token tokens) = Raise (EParseError e) ->
   snd (parse_ruleset token tokens) = rest_after opens_block (token :: tokens) /\
   recorded (rest_after opens_block (token :: tokens))) /\
  (forall rest rules' errors',
      parse_rules_loop parse_at_rule_methods rest rules (errors ++ [e]) =
        Ok (rules', errors') ->
      exists more_rules more_errors,
        parse_rules_loop parse_at_rule_methods rest [] [] =
          Ok (more_rules, more_errors) /\
        rules' = rules ++ more_rules /\
        errors' = errors ++ [e] ++ more_errors) /\
  (forall e', parse_rules_loop methods (token :: tokens) rules errors <>
              Raise (EParseError e')).
Proof.
  intros recorded Hskip. apply in_tuple_not_In in Hskip.
  assert (Hrecorded : forall rest,
             (forall methods,
                 parse_statement methods token tokens rules errors =
                 Ok (rest, (rules, errors ++ [e]))) ->
             recorded rest).
  { intros rest Hturn. unfold recorded.
    split; [apply Hturn|].
    split; [apply (parse_rules_loop_turn _ _ _ _ _ _ _ _ (Hturn methods))|].
    split; [apply (parse_rules_loop_turn _ _ _ _ _ _ _ _ (Hturn methods))|].
    rewrite (proj1 (parse_rules_loop_turn _ _ _ _ _ _ _ _
                      (Hturn parse_at_rule_methods))).
    rewrite parse_rules_loop_accumulate. unfold parse_rules.
    destruct (parse_rules_loop parse_at_rule_methods rest [] [])
      as [[more_rules more_errors]|x]; [|reflexivity].
    now rewrite <- app_assoc. }
  split; [|split; [|split; [|intros e'; apply parse_rules_loop_never_parse_error]]].
  - intros Hat Hfail.
    apply read_at_rule_parse_error in Hfail.
    split; [now rewrite Hfail|].
    apply Hrecorded. intros methods'. unfold parse_statement.
    rewrite Hskip, Hat, Hfail. reflexivity.
  - intros Hat Hfail.
    apply parse_ruleset_parse_error in Hfail.
    split; [now rewrite Hfail|].
    apply Hrecorded. intros methods'. unfold parse_statement.
    apply String.eqb_neq in Hat.
    rewrite Hskip, Hat, Hfail. reflexivity.
  - intros rest rules' errors' H.
    rewrite parse_rules_loop_accumulate in H.
    destruct (parse_rules_loop parse_at_rule_methods rest [] [])
      as [[more_rules more_errors]|x]; [|discriminate].
    injection H as <- <-.
    exists more_rules, more_errors. now rewrite <- app_assoc.
Qed.

(** ** The charset rule *)

(** Scenario A: the at-rule [@charset] followed by the string
    UTF-8 between double quotes and a [;], at line 1, column 1. *)
Definition scenario_A : token_iter :=
  [Token "ATKEYWORD" "@charset" "@charset" 1 1;
   Token "S" " " " " 1 9;
   Token "STRING" (String dquote ("UTF-8" ++ String dquote "")) "UTF-8" 1 10;
   Token ";" ";" ";" 1 17].

Definition scenario_A_rule : AtRule.t :=
  AtRule.mk "@charset"
    [Token "STRING" (String dquote ("UTF-8" ++ String dquote "")) "UTF-8" 1 10]
    None 1 1.

(** The head is one STRING token that starts with a double quote, and
    there is no body. *)
Definition charset_head (rule : AtRule.t) : Prop :=
  (exists t text,
      AtRule.head rule = [t] /\ tok_type t = "STRING" /\
      tok_as_css t = String dquote text) /\
  AtRule.body rule = None.

Definition at_beginning (rule : AtRule.t) : Prop :=
  AtRule.line rule = 1%Z /\ AtRule.column rule = 1%Z.

Lemma charset_head_ok_spec rule :
  Forall (fun t => tok_as_css t <> "") (AtRule.head rule) ->
  exists b, charset_head_ok rule = Ok b /\ (b = true <-> charset_head rule).
Proof.
  intros Htext. unfold charset_head_ok, charset_head.
  destruct (AtRule.head rule) as [|head0 [|head1 others]] eqn:Hhead; cbn [length Nat.eqb].
  - exists false. split; [reflexivity|]. split; [discriminate|].
    intros [[t [text [H _]]] _]. discriminate.
  - destruct (tok_type head0 =? "STRING") eqn:Hty.
    + apply String.eqb_eq in Hty.
      inversion Htext as [|? ? Hnonempty _]; subst.
      destruct (tok_as_css head0) as [|ch text] eqn:Hcss; [congruence|].
      cbn [str_first bind].
      exists (Ascii.eqb ch dquote &&
              match AtRule.body rule with None => true | Some _ => false end).
      split; [reflexivity|]. rewrite andb_true_iff, Ascii.eqb_eq. split.
      * intros [-> Hbody]. split.
        -- exists head0, text. auto.
        -- now destruct (AtRule.body rule).
      * intros [[t [text' [[= <-] [_ Hq]]]] ->].
        rewrite Hcss in Hq. injection Hq as -> _. auto.
    + exists false. split; [reflexivity|]. split; [discriminate|].
      intros [[t [text [[= <-] [Hs _]]]] _].
      apply String.eqb_neq in Hty. contradiction.
  - exists false. split; [reflexivity|]. split; [discriminate|].
    intros [[t [text [H _]]] _]. discriminate.
Qed.

Lemma at_beginning_test rule :
  ((AtRule.line rule =? 1) && (AtRule.column rule =? 1))%Z = true <->
  at_beginning rule.
Proof.
  unfold at_beginning. now rewrite andb_true_iff, !Z.eqb_eq.
Qed.

Lemma parse_at_rule_charset rule rules errors :
  AtRule.at_keyword rule = "@charset" ->
  Forall (fun t => tok_as_css t <> "") (AtRule.head rule) ->
  snd (parse_at_rule rule rules errors) = (rules, errors) /\
  (at_beginning rule -> charset_head rule ->
   fst (parse_at_rule rule rules errors) = Ok true) /\
  (~ at_beginning rule ->
   fst (parse_at_rule rule rules errors) =
   parse_error (OnRule rule)
     "@charset rule not at the beginning of the stylesheet") /\
  (at_beginning rule -> ~ charset_head rule ->
   fst (parse_at_rule rule rules errors) =
   parse_error (OnRule rule) "invalid @charset rule").
Proof.
  intros Hkw Htext. unfold parse_at_rule. cbn [fst snd]. rewrite Hkw.
  cbn [String.eqb Ascii.eqb Bool.eqb].
  split; [reflexivity|].
  destruct (charset_head_ok_spec rule Htext) as [b [Hok Hb]].
  destruct (((AtRule.line rule =? 1) && (AtRule.column rule =? 1))%Z) eqn:Hpos.
  - apply at_beginning_test in Hpos. rewrite Hok. cbn [bind].
    destruct b; cbn [negb bind].
    + repeat split; try reflexivity; intros; tauto.
    + repeat split; try reflexivity; intros.
      * assert (false = true) by tauto. discriminate.
      * tauto.
  - assert (Hnot : ~ at_beginning rule).
    { intros H. apply at_beginning_test in H. congruence. }
    repeat split; try reflexivity; intros; tauto.
Qed.

(** C2 (amended): on scenario A the stylesheet has no rule and no
    error: [read_at_rule] returns the at-rule and the charset handler
    claims it (it returns True) without appending it to the rules.
    For a rule whose at-keyword is [@charset], whose head tokens have
    a text, the handler leaves both lists as they are; it returns True
    when the rule is at line 1, column 1, with a head made of one
    STRING token that starts with a double quote, and no body; it
    raises the ParseError "@charset rule not at the beginning of the
    stylesheet" at any other position, and "invalid @charset rule" at
    that position with any other head or with a body.  In the driver
    such a rule is either claimed, or recorded with one of these two
    errors, which are not the error of an unknown at-rule. *)
Theorem charset_rule_claimed :
  (parse_stylesheet scenario_A = Ok (Stylesheet.mk [] []) /\
   read_at_rule (Token "ATKEYWORD" "@charset" "@charset" 1 1) (tl scenario_A) =
     (Ok scenario_A_rule, []) /\
   parse_at_rule scenario_A_rule [] [] = (Ok true, ([], []))) /\
  (forall rule rules errors,
      AtRule.at_keyword rule = "@charset" ->
      Forall (fun t => tok_as_css t <> "") (AtRule.head rule) ->
      snd (parse_at_rule rule rules errors) = (rules, errors) /\
      (at_beginning rule -> charset_head rule ->
       fst (parse_at_rule rule rules errors) = Ok true) /\
      (~ at_beginning rule ->
       fst (parse_at_rule rule rules errors) =
       parse_error (OnRule rule)
         "@charset rule not at the beginning of the stylesheet") /\
      (at_beginning rule -> ~ charset_head rule ->
       fst (parse_at_rule rule rules errors) =
       parse_error (OnRule rule) "invalid @charset rule")) /\
  (forall token tokens rule rest rules errors,
      tok_type token = "ATKEYWORD" ->
      read_at_rule token tokens = (Ok rule, rest) ->
      AtRule.at_keyword rule = "@charset" ->
      Forall (fun t => tok_as_css t <> "") (AtRule.head rule) ->
      (at_beginning rule /\ charset_head rule /\
       parse_statement parse_at_rule_methods token tokens rules errors =
       Ok (rest, (rules, errors))) \/
      (exists reason,
          (reason = "invalid @charset rule" \/
           reason = "@charset rule not at the beginning of the stylesheet") /\
          reason <> "unknown at-rule: @charset" /\
          parse_statement parse_at_rule_methods token tokens rules errors =
          Ok (rest, (rules, errors ++ [ParseError.mk (OnRule rule) reason])))).
Proof.
  split; [repeat split; vm_compute; reflexivity|].
  split; [apply parse_at_rule_charset|].
  intros token tokens rule rest rules errors Hty Hread Hkw Htext.
  unfold parse_statement. rewrite Hty, Hread.
  cbn [in_tuple existsb String.eqb Ascii.eqb Bool.eqb orb negb].
  rewrite dispatch_core.
  destruct (parse_at_rule_charset rule [] [] Hkw Htext) as [_ [Hyes [Hpos Hhead]]].
  destruct (charset_head_ok_spec rule Htext) as [b [_ Hb]].
  destruct (((AtRule.line rule =? 1) && (AtRule.column rule =? 1))%Z) eqn:Hbegin.
  - apply at_beginning_test in Hbegin. destruct b.
    + left. assert (Hc : charset_head rule) by tauto.
      rewrite (Hyes Hbegin Hc). auto.
    + right. assert (Hc : ~ charset_head rule) by (intros H; apply Hb in H; discriminate).
      rewrite (Hhead Hbegin Hc).
      exists "invalid @charset rule". repeat split; auto. discriminate.
  - right. assert (Hn : ~ at_beginning rule).
    { intros H. apply at_beginning_test in H. congruence. }
    rewrite (Hpos Hn).
    exists "@charset rule not at the beginning of the stylesheet".
    repeat split; auto. discriminate.
Qed.

(** * Further properties of the code *)

(** ** The block validator *)

Lemma reaches_context token context t ctx :
  reaches token context t ctx -> ctx = context \/ In ctx any_container_types.
Proof.
  induction 1 as [| ty cs ce content l c context t t' ctx Hty _ _ IH]; [now left|].
  right. destruct IH as [->|H]; assumption.
Qed.

Lemma validate_block_token_parse_error token :
  forall context e,
    validate_block_token context token = Raise (EParseError e) ->
    exists t ctx,
      (ctx = context \/ In ctx any_container_types) /\
      ~ In (tok_type t) any_types /\
      ~ In (tok_type t) any_container_types /\
      e = ParseError.mk (OnToken t)
            (adjective (tok_type t) ++ " " ++ tok_type t ++ " token in " ++ ctx)%string.
Proof.
  assert (Hany : forall token context e,
             validate_any token context = Raise (EParseError e) ->
             exists t ctx,
               (ctx = context \/ In ctx any_container_types) /\
               ~ In (tok_type t) any_types /\
               ~ In (tok_type t) any_container_types /\
               e = ParseError.mk (OnToken t)
                     (adjective (tok_type t) ++ " " ++ tok_type t ++
                      " token in " ++ ctx)%string).
  { intros tok context e H.
    destruct (validate_any_parse_error tok context e H) as [t [ctx [Hr [H1 [H2 He]]]]].
    exists t, ctx. repeat split; try assumption.
    now apply (reaches_context tok context t ctx). }
  induction token as [ty css v l c | ty cs ce content l c IH] using token_nested_ind;
    intros context e H; cbn [validate_block_token tok_type] in H.
  - destruct (ty =? "{"); [discriminate|].
    destruct (negb (in_tuple ty [";"; "ATKEYWORD"])); [|discriminate].
    now apply Hany in H.
  - destruct (ty =? "{").
    + apply for_each_raise in H. destruct H as [x [Hx Hraise]].
      rewrite Forall_forall in IH. exact (IH x Hx context e Hraise).
    + destruct (negb (in_tuple ty [";"; "ATKEYWORD"])); [|discriminate].
      now apply Hany in H.
Qed.

(** X1: [validate_block] passes exactly the sequences of block tokens:
    nested brace blocks of such tokens, [;] and at-keywords, and "any"
    tokens.  A [;] or an at-keyword passes in a block though
    [validate_any] refuses it.  Every ParseError it raises is the
    "unmatched" or "unexpected" error of [validate_any], whose context
    is the one given to [validate_block], however deep in brace
    blocks, or the type of a FUNCTION, parenthesis or bracket
    container; on tokens as the tokenizer groups them every failure
    is such a ParseError. *)
Theorem validate_block_grammar (tokens : list token) (context : string) :
  (validate_block tokens context = Ok tt <-> Forall valid_block_token tokens) /\
  (forall t,
      In (tok_type t) [";"; "ATKEYWORD"] ->
      validate_block [t] context = Ok tt /\
      exists e, validate_any t context = Raise (EParseError e)) /\
  (forall e,
      validate_block tokens context = Raise (EParseError e) ->
      exists t ctx,
        (ctx = context \/ In ctx any_container_types) /\
        ~ In (tok_type t) any_types /\
        ~ In (tok_type t) any_container_types /\
        ParseError.subject_ e = OnToken t /\
        ParseError.reason e =
        ((if in_tuple (tok_type t) closing_types then "unmatched" else "unexpected")
           ++ " " ++ tok_type t ++ " token in " ++ ctx)%string) /\
  (Forall well_formed tokens -> ~ Forall valid_block_token tokens ->
   exists e, validate_block tokens context = Raise (EParseError e)).
Proof.
  clear unicode_lower.
  split; [apply validate_block_ok_iff|].
  split.
  { intros t Ht. split.
    - apply validate_block_ok_iff. constructor; [|constructor].
      now apply valid_block_filler.
    - rewrite validate_any_other.
      + eexists. reflexivity.
      + intros H. simpl in Ht. destruct Ht as [Ht|[Ht|[]]]; rewrite <- Ht in H;
          unfold any_types in H; simpl in H; intuition discriminate.
      + intros H. simpl in Ht. destruct Ht as [Ht|[Ht|[]]]; rewrite <- Ht in H;
          unfold any_container_types in H; simpl in H; intuition discriminate. }
  split.
  { intros e H. unfold validate_block in H.
    apply for_each_raise in H. destruct H as [x [_ Hraise]].
    destruct (validate_block_token_parse_error x context e Hraise)
      as [t [ctx [Hctx [H1 [H2 ->]]]]].
    exists t, ctx. repeat split; assumption. }
  intros Hwf Hnot.
  pose proof (validate_block_recovered tokens context Hwf) as Hrec.
  destruct (validate_block tokens context) as [[]|x] eqn:Hv.
  - exfalso. apply Hnot. now apply (validate_block_ok_iff tokens context).
  - destruct x; try contradiction. eauto.
Qed.

Lemma validate_block_grammar_witness :
  validate_block [Token ";" ";" ";" 1 1] "property value" = Ok tt.
Proof.
  apply (proj1 (proj1 (proj2 (validate_block_grammar [] "property value"))
                  (Token ";" ";" ";" 1 1) (or_introl eq_refl))).
Defined.

(** ** Property values *)

Lemma value_check_valid t :
  (if tok_type t =? "{" then
     block <- tok_content t ;; validate_block block "property value"
   else validate_any t "property value") = Ok tt ->
  valid_value_token t.
Proof.
  destruct (tok_type t =? "{") eqn:Hb.
  - apply String.eqb_eq in Hb.
    destruct t as [ty css v l c | ty cs ce content l c]; cbn in *; [discriminate|].
    subst ty. intros H. apply valid_value_block.
    now apply (validate_block_ok_iff content "property value").
  - intros H. apply valid_value_any.
    now apply (validate_any_ok_iff t "property value").
Qed.

Lemma parse_value_loop_kept tokens :
  forall content result,
    truthy content = true ->
    parse_value_loop content tokens = Ok result ->
    result = content ++ tokens /\ Forall valid_value_token tokens.
Proof.
  induction tokens as [|t ts IH]; intros content result Hc H.
  - cbn in H. injection H as <-. now rewrite app_nil_r.
  - cbn [parse_value_loop] in H. rewrite Hc in H. cbn [orb] in H.
    destruct (if tok_type t =? "{" then _ else _) as [[]|x] eqn:Hcheck;
      cbn [bind] in H; [|discriminate].
    apply IH in H; [|now destruct content].
    destruct H as [-> Hts]. rewrite <- app_assoc. split; [reflexivity|].
    constructor; [now apply value_check_valid | exact Hts].
Qed.

Lemma parse_value_loop_from_first first tokens result :
  tok_type first <> "S" ->
  parse_value_loop [] (first :: tokens) = Ok result ->
  result = first :: tokens /\ Forall valid_value_token (first :: tokens).
Proof.
  intros Hf H. cbn [parse_value_loop truthy orb] in H.
  apply String.eqb_neq in Hf. rewrite Hf in H. cbn [negb] in H.
  destruct (if tok_type first =? "{" then _ else _) as [[]|x] eqn:Hcheck;
    cbn [bind] in H; [|discriminate].
  apply parse_value_loop_kept in H; [|reflexivity].
  destruct H as [-> Hts]. split; [reflexivity|].
  constructor; [now apply value_check_valid | exact Hts].
Qed.

Lemma pop_while_S_dropped reversed :
  exists dropped,
    reversed = dropped ++ pop_while_S reversed /\
    Forall is_S dropped /\
    match pop_while_S reversed with
    | [] => True
    | last :: _ => tok_type last <> "S"
    end.
Proof.
  induction reversed as [|t ts IH]; [exists []; repeat split; constructor|].
  cbn [pop_while_S].
  destruct (tok_type t =? "S") eqn:Ht.
  - destruct IH as [dropped [Heq [Hd Hk]]].
    exists (t :: dropped). split; [cbn; now rewrite <- Heq|].
    split; [|exact Hk]. constructor; [now apply String.eqb_eq | exact Hd].
  - exists []. repeat split; [constructor | now apply String.eqb_neq].
Qed.

(** What stripping the white space at the end leaves. *)
Lemma strip_trailing_S content :
  exists trail,
    content = rev (pop_while_S (rev content)) ++ trail /\
    Forall is_S trail /\
    (rev (pop_while_S (rev content)) = [] \/
     tok_type (last (rev (pop_while_S (rev content))) (Token "" "" "" 0 0)) <> "S").
Proof.
  destruct (pop_while_S_dropped (rev content)) as [dropped [Heq [Hd Hk]]].
  exists (rev dropped). split.
  - rewrite <- rev_app_distr, <- Heq. now rewrite rev_involutive.
  - split; [now apply Forall_rev|].
    destruct (pop_while_S (rev content)) as [|z kept]; [now left|].
    right. cbn [rev]. now rewrite last_last.
Qed.

(** X2: [parse_value] returns exactly when every token is a token of
    the "value" production (an "any", or a brace block of block
    tokens).  What it returns is then the input without the white
    space it starts and ends with: the input is white space, the
    result, white space, and the result is empty or starts and ends
    with tokens that are not white space. *)
Theorem parse_value_trims (tokens : list token) :
  ((exists content, parse_value tokens = Ok content) <->
   Forall valid_value_token tokens) /\
  (forall content,
      parse_value tokens = Ok content ->
      exists lead trail,
        tokens = lead ++ content ++ trail /\
        Forall is_S lead /\ Forall is_S trail /\
        match content with
        | [] => True
        | first :: _ =>
            tok_type first <> "S" /\ tok_type (last content first) <> "S"
        end).
Proof.
  destruct (leading_white_space tokens) as [lead [rest [-> [Hlead Hrest]]]].
  unfold parse_value. rewrite parse_value_loop_skip by exact Hlead.
  assert (Hlead_valid : Forall valid_value_token lead).
  { eapply Forall_impl; [|exact Hlead]. apply is_S_valid_value. }
  split.
  - split.
    + intros [content H].
      apply Forall_app. split; [exact Hlead_valid|].
      destruct rest as [|first more]; [constructor|].
      destruct (parse_value_loop [] (first :: more)) as [result|x] eqn:Hloop;
        cbn [bind] in H; [|discriminate].
      now apply parse_value_loop_from_first in Hloop.
    + intros Hall. apply Forall_app in Hall. destruct Hall as [_ Hvalid].
      destruct rest as [|first more]; [cbn; eauto|].
      rewrite parse_value_loop_first by assumption. cbn [bind]. eauto.
  - intros content H.
    assert (Hresult : parse_value_loop [] rest = Ok rest).
    { destruct rest as [|first more]; [reflexivity|].
      destruct (parse_value_loop [] (first :: more)) as [result|x] eqn:Hloop;
        cbn [bind] in H; [|discriminate].
      apply parse_value_loop_from_first in Hloop; [|exact Hrest].
      now destruct Hloop as [-> _]. }
    rewrite Hresult in H. cbn [bind] in H. injection H as <-.
    destruct (strip_trailing_S rest) as [trail [Heq [Htrail Hlast]]].
    exists lead, trail. split; [now rewrite <- Heq|].
    split; [exact Hlead|]. split; [exact Htrail|].
    destruct (rev (pop_while_S (rev rest))) as [|c0 cs] eqn:Hcontent; [exact I|].
    split.
    + destruct rest as [|first more]; [destruct trail; discriminate|].
      cbn [app] in Heq. injection Heq as <- _. exact Hrest.
    + destruct Hlast as [Hnil|Hlast]; [discriminate|].
      now rewrite last_cons in *.
Qed.

Lemma parse_value_trims_witness :
  exists content,
    parse_value [Token "S" " " " " 1 1; Token "NUMBER" "1" "1" 1 2;
                 Token "S" " " " " 1 3] = Ok content.
Proof.
  apply (proj2 (proj1 (parse_value_trims
                         [Token "S" " " " " 1 1; Token "NUMBER" "1" "1" 1 2;
                          Token "S" " " " " 1 3]))).
  repeat constructor; simpl; tauto.
Defined.

(** ** Single declarations *)

Lemma find_colon_unexpected token ws t rest :
  Forall is_S ws ->
  tok_type t <> ":" -> tok_type t <> "S" ->
  find_colon token (ws ++ t :: rest) =
  parse_error (OnToken t) ("expected ':', got " ++ tok_type t)%string.
Proof.
  intros Hws Hcolon HS. revert token.
  induction Hws as [|w ws Hw _ IH]; intros token.
  - cbn [app find_colon]. apply String.eqb_neq in Hcolon, HS.
    now rewrite Hcolon, HS.
  - cbn [app find_colon]. rewrite Hw. cbn. apply IH.
Qed.

Lemma find_colon_missing token ws :
  Forall is_S ws ->
  find_colon (Some token) ws =
  parse_error (OnToken (last ws token)) "expected ':'".
Proof.
  intros Hws. revert token.
  induction Hws as [|w ws Hw _ IH]; intros token; [reflexivity|].
  cbn [find_colon]. rewrite Hw. cbn [String.eqb Ascii.eqb Bool.eqb negb].
  rewrite IH. now rewrite last_cons.
Qed.

Lemma find_colon_found tokens :
  forall token colon rest,
    find_colon token tokens = Ok (colon, rest) ->
    exists ws,
      tokens = ws ++ colon :: rest /\ Forall is_S ws /\ tok_type colon = ":".
Proof.
  induction tokens as [|t ts IH]; intros token colon rest H.
  - cbn in H. destruct token; discriminate.
  - cbn [find_colon] in H.
    destruct (tok_type t =? ":") eqn:Hc.
    + injection H as <- <-. exists []. repeat split; [constructor|].
      now apply String.eqb_eq.
    + destruct (tok_type t =? "S") eqn:HS; cbn [negb] in H; [|discriminate].
      destruct (IH _ _ _ H) as [ws [-> [Hws Hcolon]]].
      exists (t :: ws). repeat split; [|exact Hcolon].
      constructor; [now apply String.eqb_eq | exact Hws].
Qed.

(** X3: after the property name, only white space may come before the
    colon.  Another token there makes [parse_declaration] fail with
    "expected ':', got" and the type of that token, about that token;
    white space up to the end of the input makes it fail with
    "expected ':'" about the last white space token. *)
Theorem parse_declaration_expects_colon
    (css v : string) (l c : Z) (ws : list token) :
  Forall is_S ws ->
  (forall t rest,
      tok_type t <> ":" -> tok_type t <> "S" ->
      parse_declaration (Token "IDENT" css v l c :: ws ++ t :: rest) =
      parse_error (OnToken t) ("expected ':', got " ++ tok_type t)%string) /\
  (forall w,
      is_S w ->
      parse_declaration (Token "IDENT" css v l c :: ws ++ [w]) =
      parse_error (OnToken w) "expected ':'").
Proof.
  intros Hws. split.
  - intros t rest Hcolon HS.
    cbn [parse_declaration tok_type tok_value].
    rewrite String.eqb_refl. cbn [bind].
    now rewrite find_colon_unexpected.
  - intros w Hw.
    cbn [parse_declaration tok_type tok_value].
    rewrite String.eqb_refl. cbn [bind].
    assert (Hall : Forall is_S (ws ++ [w])).
    { apply Forall_app. split; [exact Hws | now constructor]. }
    destruct ws as [|w0 ws'].
    + cbn [app find_colon]. rewrite Hw. reflexivity.
    + cbn [app find_colon]. inversion Hws as [|? ? Hw0 Hws']; subst.
      rewrite Hw0. cbn [String.eqb Ascii.eqb Bool.eqb negb].
      rewrite find_colon_missing.
      * cbn [bind]. now rewrite last_last.
      * apply Forall_app. split; [exact Hws' | now constructor].
Qed.

(** X4: a declaration whose colon is followed by nothing, or by white
    space only, fails with "expected a property value", about the
    colon. *)
Theorem parse_declaration_expects_value
    (css v : string) (l c : Z) (ws blank : list token) (colon : token) :
  Forall is_S ws ->
  tok_type colon = ":" ->
  Forall is_S blank ->
  parse_declaration (Token "IDENT" css v l c :: ws ++ colon :: blank) =
  parse_error (OnToken colon) "expected a property value".
Proof.
  intros Hws Hcolon Hblank.
  cbn [parse_declaration tok_type tok_value].
  rewrite String.eqb_refl. cbn [bind].
  rewrite find_colon_skip by assumption. cbn [bind].
  unfold parse_value.
  rewrite <- (app_nil_r blank), parse_value_loop_skip by exact Hblank.
  reflexivity.
Qed.

(** X5: [parse_declaration] returns a declaration only for an input
    made of an identifier, white space, a colon and value tokens.  The
    declaration has the position of the identifier and its value in
    lower case as name; its value is a VALUES container, at the
    position of its first token, whose content is what [parse_value]
    makes of the value tokens and is never empty. *)
Theorem parse_declaration_returns
    (tokens : list token) (declaration : Declaration.t) :
  parse_declaration tokens = Ok declaration ->
  exists css v l c ws colon value first others,
    tokens = Token "IDENT" css v l c :: ws ++ colon :: value /\
    Forall is_S ws /\
    tok_type colon = ":" /\
    parse_value value = Ok (first :: others) /\
    declaration =
    Declaration.mk (lower v)
      (ContainerToken "VALUES" "" "" (first :: others)
         (tok_line first) (tok_column first)) l c.
Proof.
  intros H. destruct tokens as [|name_token tokens]; [discriminate|].
  cbn [parse_declaration] in H.
  destruct (tok_type name_token =? "IDENT") eqn:Hident; [|discriminate].
  apply String.eqb_eq in Hident.
  destruct name_token as [ty css v l c | ty cs ce content l c];
    cbn [tok_value bind tok_type] in *; [|discriminate].
  subst ty.
  destruct (find_colon None tokens) as [[colon rest]|x] eqn:Hfind;
    cbn [bind] in H; [|discriminate].
  destruct (find_colon_found _ _ _ _ Hfind) as [ws [-> [Hws Hcolon]]].
  destruct (parse_value rest) as [[|first others]|x] eqn:Hvalue;
    cbn [bind] in H; try discriminate.
  injection H as <-.
  exists css, v, l, c, ws, colon, rest, first, others.
  repeat split; assumption.
Qed.

(** ** Rule sets with a selector *)

Lemma parse_ruleset_loop_collect first selector :
  forall parts token rest,
    Forall (fun t => tok_type t <> "{") selector ->
    parse_ruleset_loop first parts token (selector ++ rest) =
    parse_ruleset_loop first (parts ++ selector) (last selector token) rest.
Proof.
  induction selector as [|t ts IH]; intros parts token rest Hsel.
  - cbn. now rewrite app_nil_r.
  - inversion Hsel as [|? ? Ht Hts]; subst.
    cbn [app parse_ruleset_loop]. apply String.eqb_neq in Ht. rewrite Ht.
    rewrite IH by exact Hts. rewrite <- app_assoc. cbn [app].
    now rewrite last_cons.
Qed.

(** X6: a selector is taken whole or not at all.  [parse_ruleset]
    reads the tokens before the first brace block as the selector and
    takes the block out of the iterator in any case.  When every
    selector token is an "any", the outcome is that of
    [parse_declaration_list] on the content of the block: when it
    returns, the rule set with the SELECTOR container of the selector
    tokens, white space included, at the position of the first one,
    and the declarations and errors of the block; when it raises, what
    it raises, which is the UnboundLocalError of [parse_declaration]
    for a block made of a lone identifier, as in [a {color}].  When a
    selector token is no "any", the call raises and the block is not
    looked at -- with a ParseError for tokens as the tokenizer groups
    them. *)
Theorem parse_ruleset_selector
    (first : token) (more : list token) (cs ce : string) (content : list token)
    (l c : Z) (after : token_iter) :
  let block := ContainerToken "{" cs ce content l c in
  let parsed := parse_ruleset first (more ++ block :: after) in
  Forall (fun t => tok_type t <> "{") (first :: more) ->
  snd parsed = after /\
  (Forall valid_any (first :: more) ->
   fst parsed =
   match parse_declaration_list content with
   | Ok (declarations, errors) =>
       Ok (RuleSet.mk
             (ContainerToken "SELECTOR" "" "" (first :: more)
                (tok_line first) (tok_column first))
             declarations (tok_line first) (tok_column first),
           errors)
   | Raise x => Raise x
   end) /\
  (Forall valid_any (first :: more) ->
   forall css v l' c',
     content = [Token "IDENT" css v l' c'] ->
     fst parsed = Raise (UnboundLocalError "token")) /\
  (~ Forall valid_any (first :: more) ->
   exists x,
     for_each (fun t => validate_any t "selector") (first :: more) = Raise x /\
     fst parsed = Raise x) /\
  (Forall well_formed (first :: more) -> ~ Forall valid_any (first :: more) ->
   exists e, fst parsed = Raise (EParseError e)).
Proof.
  intros block parsed Hsel. subst parsed. unfold parse_ruleset.
  change (first :: more ++ block :: after) with ((first :: more) ++ block :: after).
  rewrite parse_ruleset_loop_collect by exact Hsel.
  cbn [app parse_ruleset_loop]. change (tok_type block) with "{".
  cbn [String.eqb Ascii.eqb Bool.eqb fst snd].
  split; [reflexivity|].
  split.
  { intros Hvalid.
    rewrite (proj2 (validate_all_ok "selector" (first :: more)) Hvalid).
    cbn [bind tok_content block].
    destruct (parse_declaration_list content) as [[declarations errors]|x];
      reflexivity. }
  split.
  { intros Hvalid css v l' c' ->.
    rewrite (proj2 (validate_all_ok "selector" (first :: more)) Hvalid).
    reflexivity. }
  assert (Hfail : ~ Forall valid_any (first :: more) ->
                  exists x,
                    for_each (fun t => validate_any t "selector") (first :: more) =
                    Raise x).
  { intros Hinvalid. apply for_each_fails. intros H. apply Hinvalid.
    apply (validate_all_ok "selector"). now apply for_each_ok. }
  split.
  { intros Hinvalid. destruct (Hfail Hinvalid) as [x Hx].
    exists x. split; [exact Hx|]. rewrite Hx. reflexivity. }
  intros Hwf Hinvalid. destruct (Hfail Hinvalid) as [x Hx].
  pose proof (validate_all_recovered "selector" (first :: more) Hwf) as Hrec.
  rewrite Hx in *. cbn [bind]. destruct x; try contradiction. eauto.
Qed.

(** X7: when no brace block follows, [parse_ruleset] reads the
    iterator to its end and fails with "no declaration block found
    for ruleset" about the last token; the driver records that one
    error for the whole remainder of the stream and stops. *)
Theorem parse_ruleset_without_block
    (methods : list at_rule_method) (first : token) (tokens : token_iter)
    (rules : list statement) (errors : list ParseError.t) :
  let missing :=
    ParseError.mk (OnToken (last tokens first))
      "no declaration block found for ruleset" in
  Forall (fun t => tok_type t <> "{") (first :: tokens) ->
  parse_ruleset first tokens = (Raise (EParseError missing), []) /\
  (~ In (tok_type first) ["S"; "CDO"; "CDC"; "ATKEYWORD"] ->
   parse_rules_loop methods (first :: tokens) rules errors =
   Ok (rules, errors ++ [missing])).
Proof.
  intros missing Hnone.
  assert (Hparse : parse_ruleset first tokens = (Raise (EParseError missing), [])).
  { unfold parse_ruleset.
    rewrite <- (app_nil_r (first :: tokens)).
    rewrite parse_ruleset_loop_collect by exact Hnone.
    cbn [parse_ruleset_loop app]. unfold missing. now rewrite last_cons. }
  split; [exact Hparse|].
  intros Hstart.
  rewrite parse_rules_loop_cons. unfold parse_statement.
  assert (Hskip : in_tuple (tok_type first) ["S"; "CDO"; "CDC"] = false).
  { apply in_tuple_not_In. intros H. apply Hstart. simpl in *. tauto. }
  assert (Hat : (tok_type first =? "ATKEYWORD") = false).
  { apply String.eqb_neq. intros H. apply Hstart. rewrite H. simpl. tauto. }
  rewrite Hskip, Hat, Hparse. cbn [negb].
  now simp parse_rules_loop.
Qed.

(** ** The driver *)

(** X8: white space and the CDO and CDC tokens between rules change
    nothing: the driver goes over them, and a stream made of nothing
    else gives no rule and no error. *)
Theorem parse_rules_skips
    (methods : list at_rule_method) (skipped : list token) (tokens : token_iter)
    (rules : list statement) (errors : list ParseError.t) :
  Forall (fun t => In (tok_type t) ["S"; "CDO"; "CDC"]) skipped ->
  parse_rules_loop methods (skipped ++ tokens) rules errors =
  parse_rules_loop methods tokens rules errors /\
  parse_rules skipped = Ok ([], []).
Proof.
  intros Hskipped.
  assert (Hgo : forall rest rs es,
             parse_rules_loop methods (skipped ++ rest) rs es =
             parse_rules_loop methods rest rs es).
  { intros rest rs es.
    induction Hskipped as [|t ts Ht _ IH]; [reflexivity|].
    cbn [app]. rewrite parse_rules_loop_cons. unfold parse_statement.
    apply in_tuple_In in Ht. rewrite Ht. cbn [negb]. exact IH. }
  split; [apply Hgo|].
  unfold parse_rules. clear Hgo.
  induction Hskipped as [|t ts Ht _ IH]; [now simp parse_rules_loop|].
  rewrite parse_rules_loop_cons. unfold parse_statement.
  apply in_tuple_In in Ht. rewrite Ht. cbn [negb]. exact IH.
Qed.

(** X9: with the methods of [CoreParser], an at-rule that is read and
    whose at-keyword is not [@charset] is claimed by no method: the
    turn of the driver ends with "unknown at-rule:" and the at-keyword
    in lower case recorded about the rule, at the end of the errors,
    with no rule added and the iterator after the at-rule, and the
    loop goes on from there.  When only white space, CDO and CDC
    tokens are left, the call returns the rules as they were and the
    errors with that error at their end; and it returns whenever the
    stylesheet made of the tokens that are left does, with that error
    between the errors as they were and the errors of what is left. *)
Theorem unknown_at_rule_reported
    (css v : string) (l c : Z) (tokens rest : token_iter) (rule : AtRule.t)
    (rules : list statement) (errors : list ParseError.t) :
  let token := Token "ATKEYWORD" css v l c in
  let unknown :=
    ParseError.mk (OnRule rule) ("unknown at-rule: " ++ lower v)%string in
  lower v <> "@charset" ->
  read_at_rule token tokens = (Ok rule, rest) ->
  parse_statement parse_at_rule_methods token tokens rules errors =
    Ok (rest, (rules, errors ++ [unknown])) /\
  parse_rules_loop parse_at_rule_methods (token :: tokens) rules errors =
    parse_rules_loop parse_at_rule_methods rest rules (errors ++ [unknown]) /\
  (Forall (fun t => In (tok_type t) ["S"; "CDO"; "CDC"]) rest ->
   parse_rules_loop parse_at_rule_methods (token :: tokens) rules errors =
     Ok (rules, errors ++ [unknown])) /\
  parse_rules_loop parse_at_rule_methods (token :: tokens) rules errors =
    match parse_rules rest with
    | Ok (more_rules, more_errors) =>
        Ok (rules ++ more_rules, errors ++ [unknown] ++ more_errors)
    | Raise x => Raise x
    end.
Proof.
  intros token unknown Hkw Hread.
  assert (Hrule : AtRule.at_keyword rule = lower v).
  { unfold read_at_rule in Hread. cbn [tok_value token] in Hread.
    now destruct (read_at_rule_loop_keyword _ _ _ _ _ _ _ Hread). }
  assert (Hturn : parse_statement parse_at_rule_methods token tokens rules errors =
                  Ok (rest, (rules, errors ++ [unknown]))).
  { unfold parse_statement.
    cbn [tok_type token in_tuple existsb String.eqb Ascii.eqb Bool.eqb orb negb].
    fold token. rewrite Hread, dispatch_core.
    unfold parse_at_rule. cbn [fst]. rewrite Hrule.
    apply String.eqb_neq in Hkw. rewrite Hkw. reflexivity. }
  destruct (parse_rules_loop_turn _ _ _ _ _ _ _ _ Hturn) as [Hgo Hskipped].
  split; [exact Hturn|]. split; [exact Hgo|]. split; [exact Hskipped|].
  rewrite Hgo, parse_rules_loop_accumulate. unfold parse_rules.
  destruct (parse_rules_loop parse_at_rule_methods rest [] [])
    as [[more_rules more_errors]|x]; [|reflexivity].
  now rewrite <- app_assoc.
Qed.

(** X10: the methods are tried in order and the first that claims the
    rule ends the chain.  Behind methods that decline and leave both
    lists as they are, a method that returns True or raises decides
    the outcome, whatever methods come after it; when every method
    declines, the rule is recorded as an unknown at-rule. *)
Theorem dispatch_first_claim
    (declining later : list at_rule_method) (method : at_rule_method)
    (rule : AtRule.t) (rules : list statement) (errors : list ParseError.t) :
  Forall (fun m => m rule rules errors = (Ok false, (rules, errors))) declining ->
  (forall after,
      method rule rules errors = (Ok true, after) ->
      dispatch (declining ++ method :: later) rule rules errors = (Ok tt, after)) /\
  (forall x after,
      method rule rules errors = (Raise x, after) ->
      dispatch (declining ++ method :: later) rule rules errors = (Raise x, after)) /\
  dispatch declining rule rules errors =
  (Ok tt,
   (rules,
    errors ++ [ParseError.mk (OnRule rule)
                 ("unknown at-rule: " ++ AtRule.at_keyword rule)%string])).
Proof.
  intros Hdecline.
  assert (Hchain : forall ms,
             dispatch (declining ++ ms) rule rules errors =
             dispatch ms rule rules errors).
  { intros ms. induction Hdecline as [|m ms' Hm _ IH]; [reflexivity|].
    cbn [app dispatch]. rewrite Hm. exact IH. }
  split; [|split].
  - intros after Hclaim. rewrite Hchain. cbn [dispatch]. rewrite Hclaim.
    now destruct after.
  - intros x after Hraise. rewrite Hchain. cbn [dispatch]. rewrite Hraise.
    now destruct after.
  - rewrite <- (app_nil_r declining), Hchain. reflexivity.
Qed.

Lemma dispatch_first_claim_witness :
  dispatch ([parse_at_rule] ++ (fun _ rules errors => (Ok true, (rules, errors))) :: [])
    (AtRule.mk "@media" [] None 1 1) [] [] = (Ok tt, ([], [])).
Proof.
  refine (proj1 (dispatch_first_claim [parse_at_rule] []
                   (fun _ rules errors => (Ok true, (rules, errors)))
                   (AtRule.mk "@media" [] None 1 1) [] [] _) _ eq_refl).
  repeat constructor.
Defined.

(** X11: the driver parses a stream statement by statement: what it
    returns for a stream is what its first turn appends, followed by
    what it returns for the tokens that turn leaves, parsed from
    empty lists; an exception of either is the exception of the whole. *)
Theorem parse_rules_by_statement (token : token) (tokens : token_iter) :
  parse_rules (token :: tokens) =
  match parse_statement parse_at_rule_methods token tokens [] [] with
  | Ok (rest, (rules, errors)) =>
      match parse_rules rest with
      | Ok (more_rules, more_errors) =>
          Ok (rules ++ more_rules, errors ++ more_errors)
      | Raise x => Raise x
      end
  | Raise x => Raise x
  end.
Proof.
  unfold parse_rules. rewrite parse_rules_loop_cons.
  destruct (parse_statement parse_at_rule_methods token tokens [] [])
    as [[rest [rules errors]]|x]; [|reflexivity].
  apply parse_rules_loop_accumulate.
Qed.

Lemma parse_statement_rules_kind token tokens rules errors rest rules' errors' :
  parse_statement parse_at_rule_methods token tokens rules errors =
    Ok (rest, (rules', errors')) ->
  rules' = rules \/ exists r, rules' = rules ++ [IsRuleSet r].
Proof.
  unfold parse_statement.
  destruct (negb (in_tuple (tok_type token) ["S"; "CDO"; "CDC"])).
  2:{ intros [= _ <- _]. now left. }
  destruct (tok_type token =? "ATKEYWORD").
  - destruct (read_at_rule token tokens) as [[rule|x] rest0].
    + rewrite dispatch_core.
      destruct (fst (parse_at_rule rule [] [])) as [[]|[e| | | |]];
        intros [= _ <- _]; now left.
    + destruct x; intros [= _ <- _]; now left.
  - destruct (parse_ruleset token tokens) as [[[rule rule_errors]|x] rest0].
    + intros [= _ <- _]. right. eauto.
    + destruct x; intros [= _ <- _]; now left.
Qed.

(** X12: [CoreParser] puts no at-rule in the rules: whatever the
    stream, every rule of the stylesheet it returns is a RuleSet,
    whose [at_keyword] is None. *)
Theorem core_rules_are_rulesets (tokens : token_iter) (sheet : Stylesheet.t) :
  parse_stylesheet tokens = Ok sheet ->
  Forall (fun rule => (exists r, rule = IsRuleSet r) /\ rule_at_keyword rule = None)
    (Stylesheet.rules sheet).
Proof.
  assert (Hloop : forall tokens rules errors rules' errors',
             parse_rules_loop parse_at_rule_methods tokens rules errors =
               Ok (rules', errors') ->
             Forall (fun rule => (exists r, rule = IsRuleSet r) /\
                                 rule_at_keyword rule = None) rules ->
             Forall (fun rule => (exists r, rule = IsRuleSet r) /\
                                 rule_at_keyword rule = None) rules').
  { clear tokens sheet. intros tokens.
    remember (length tokens) as n eqn:Hn. revert tokens Hn.
    induction n as [n IH] using lt_wf_ind.
    intros tokens Hn rules errors rules' errors' H Hall.
    destruct tokens as [|token tokens].
    - simp parse_rules_loop in H. now injection H as <- _.
    - rewrite parse_rules_loop_cons in H.
      destruct (parse_statement parse_at_rule_methods token tokens rules errors)
        as [[rest [rs es]]|x] eqn:Hs; [|discriminate].
      pose proof (parse_statement_rest _ _ _ _ _ _ _ Hs) as Hlen.
      apply parse_statement_rules_kind in Hs.
      apply (IH (length rest)) with (tokens := rest) (rules := rs) (errors := es)
                                    (errors' := errors');
        [subst n; cbn [length]; lia | reflexivity | exact H |].
      destruct Hs as [->|[r ->]]; [exact Hall|].
      apply Forall_app. split; [exact Hall|].
      constructor; [|constructor]. split; [eauto | reflexivity]. }
  unfold parse_stylesheet, parse_rules. intros H.
  destruct (parse_rules_loop parse_at_rule_methods tokens [] [])
    as [[rules errors]|x] eqn:Hp; cbn [bind] in H; [|discriminate].
  injection H as <-. cbn [Stylesheet.rules fst].
  now apply (Hloop tokens [] [] rules errors Hp).
Qed.

(** ** What the readers return *)

Lemma read_at_rule_loop_returns kw kwt tokens :
  forall head token rule rest,
    read_at_rule_loop kw kwt head token tokens = (Ok rule, rest) ->
    exists ws kept stop,
      tokens = ws ++ kept ++ stop :: rest /\
      Forall is_S ws /\
      (truthy head = true -> ws = []) /\
      match kept with
      | [] => True
      | first :: _ => truthy head = true \/ tok_type first <> "S"
      end /\
      Forall (fun t => str_in (tok_type t) "{;" = false) (ws ++ kept) /\
      str_in (tok_type stop) "{;" = true /\
      AtRule.head rule = head ++ kept /\
      Forall valid_any (head ++ kept) /\
      AtRule.body rule = (if tok_type stop =? "{" then Some stop else None).
Proof.
  induction tokens as [|t ts IH]; intros head token rule rest H.
  - cbn in H. discriminate.
  - cbn [read_at_rule_loop] in H.
    destruct (str_in (tok_type t) "{;") eqn:Hstop.
    + destruct (for_each (fun head_token => validate_any head_token "at-rule head") head)
        as [[]|x] eqn:Hvalid; cbn [bind] in H; [|discriminate].
      injection H as <- <-.
      exists [], [], t. cbn [app AtRule.head AtRule.body].
      rewrite app_nil_r.
      split; [reflexivity|]. split; [constructor|]. split; [reflexivity|].
      split; [exact I|]. split; [constructor|]. split; [exact Hstop|].
      split; [reflexivity|]. split; [|reflexivity].
      now apply (validate_all_ok "at-rule head").
    + destruct (truthy head || negb (tok_type t =? "S")) eqn:Hkeep.
      * apply IH in H.
        destruct H as [ws [kept [stop [-> [Hws [Hnil [_ [Hno [Hs [Hh [Hv Hb]]]]]]]]]]].
        assert (Hws_nil : ws = []) by (apply Hnil; now destruct head).
        subst ws. cbn [app] in *.
        exists [], (t :: kept), stop. cbn [app].
        rewrite <- app_assoc in Hh, Hv. cbn [app] in Hh, Hv.
        split; [reflexivity|]. split; [constructor|]. split; [reflexivity|].
        split.
        { destruct (truthy head); [now left|].
          right. cbn [orb] in Hkeep. apply String.eqb_neq.
          now destruct (tok_type t =? "S"). }
        split; [now constructor|]. split; [exact Hs|].
        split; [exact Hh|]. split; [exact Hv | exact Hb].
      * apply IH in H.
        destruct H as [ws [kept [stop [-> [Hws [Hnil [Hk [Hno [Hs [Hh [Hv Hb]]]]]]]]]]].
        apply orb_false_iff in Hkeep. destruct Hkeep as [Hhead HS].
        apply negb_false_iff, String.eqb_eq in HS.
        exists (t :: ws), kept, stop. cbn [app].
        split; [reflexivity|]. split; [now constructor|].
        split; [congruence|]. split; [exact Hk|].
        split; [now constructor|]. split; [exact Hs|].
        split; [exact Hh|]. split; [exact Hv | exact Hb].
Qed.

(** X13: every at-rule that [read_at_rule] returns was read from
    white space, head tokens, and a token that ends the head, in this
    order and with nothing after it taken from the iterator.  Its
    head is these head tokens: it does not start with white space and
    every token in it is an "any".  Its body is the ending token when
    that is a brace block, and None otherwise; its position is that
    of the at-keyword token. *)
Theorem read_at_rule_returns
    (at_keyword_token : token) (tokens rest : token_iter) (rule : AtRule.t) :
  read_at_rule at_keyword_token tokens = (Ok rule, rest) ->
  exists ws stop,
    tokens = ws ++ AtRule.head rule ++ stop :: rest /\
    Forall is_S ws /\
    match AtRule.head rule with
    | [] => True
    | first :: _ => tok_type first <> "S"
    end /\
    Forall valid_any (AtRule.head rule) /\
    Forall (fun t => str_in (tok_type t) "{;" = false) (ws ++ AtRule.head rule) /\
    str_in (tok_type stop) "{;" = true /\
    AtRule.body rule = (if tok_type stop =? "{" then Some stop else None) /\
    AtRule.line rule = tok_line at_keyword_token /\
    AtRule.column rule = tok_column at_keyword_token.
Proof.
  intros H. unfold read_at_rule in H.
  destruct (tok_value at_keyword_token) as [value|x]; [|discriminate].
  destruct (read_at_rule_loop_keyword _ _ _ _ _ _ _ H) as [_ [Hline Hcolumn]].
  apply read_at_rule_loop_returns in H.
  destruct H as [ws [kept [stop [-> [Hws [_ [Hk [Hno [Hs [Hh [Hv Hb]]]]]]]]]]].
  cbn [app] in Hh, Hv.
  exists ws, stop. rewrite Hh.
  split; [reflexivity|]. split; [exact Hws|].
  split.
  { destruct kept as [|first others]; [exact I|].
    destruct Hk as [Hk|Hk]; [discriminate | exact Hk]. }
  split; [exact Hv|]. split; [exact Hno|]. split; [exact Hs|].
  split; [exact Hb|]. split; [exact Hline | exact Hcolumn].
Qed.

(** ** Counting declarations *)

Lemma parse_parts_count parts :
  forall declarations errors declarations' errors',
    parse_parts declarations errors parts = Ok (declarations', errors') ->
    length declarations' + length errors' =
    length declarations + length errors + length parts.
Proof.
  induction parts as [|part parts IH]; intros ds es ds' es' H.
  - cbn in H. injection H as <- <-. cbn. lia.
  - cbn [parse_parts] in H.
    destruct (parse_declaration part) as [d|[e| | | |]]; try discriminate;
      apply IH in H; rewrite H, length_app; cbn [length]; lia.
Qed.

Lemma split_at_semicolons_length tokens :
  length (split_at_semicolons tokens) =
  S (length (filter (fun t => tok_type t =? ";") tokens)).
Proof.
  induction tokens as [|t ts IH]; [reflexivity|].
  cbn [split_at_semicolons filter].
  destruct (tok_type t =? ";"); cbn [length]; [now rewrite IH|].
  destruct (split_at_semicolons ts); cbn [length] in *; [discriminate | exact IH].
Qed.

(** X14: when [parse_declaration_list] returns, every part of the
    input is accounted for once, as a declaration or as an error: the
    two lists together are as long as the list of parts, which are at
    most one more than the [;] tokens of the input. *)
Theorem parse_declaration_list_counts
    (tokens : list token) (declarations : list Declaration.t)
    (errors : list ParseError.t) :
  parse_declaration_list tokens = Ok (declarations, errors) ->
  length declarations + length errors = length (split_parts [] [] tokens) /\
  length (split_parts [] [] tokens) <=
  S (length (filter (fun t => tok_type t =? ";") tokens)).
Proof.
  intros H. unfold parse_declaration_list in H.
  split; [now apply parse_parts_count in H|].
  rewrite split_parts_segments. unfold segments.
  etransitivity; [apply filter_length_le|].
  now rewrite length_map, split_at_semicolons_length.
Qed.

(** ** The one exception that escapes *)

(** A value, a ParseError, or the UnboundLocalError of the loop
    variable [token]. *)
Definition recovered_or_unbound {A : Type} (r : result A) : Prop :=
  match r with
  | Ok _ => True
  | Raise (EParseError _) => True
  | Raise x => x = UnboundLocalError "token"
  end.

Lemma recovered_weaken {A} (r : result A) :
  recovered r -> recovered_or_unbound r.
Proof. clear unicode_lower. destruct r as [a|[e| | | |]]; cbn; tauto. Qed.

Lemma parse_declaration_unbound_only part :
  Forall well_formed part -> part <> [] ->
  recovered_or_unbound (parse_declaration part).
Proof.
  intros Hwf Hne.
  destruct part as [|name [|t ts]]; [congruence| |].
  - inversion Hwf as [|? ? Hname _]; subst.
    destruct (string_dec (tok_type name) "IDENT") as [Hident|Hident].
    + destruct name as [ty css v l c | ty cs ce content l c].
      * cbn in Hident. subst ty. reflexivity.
      * inversion Hname as [|? ? ? ? ? ? Hty _]; subst. cbn in Hident. subst ty.
        simpl in Hty. intuition discriminate.
    + apply recovered_weaken, parse_declaration_recovered; try assumption.
      intros [t [[= <-] Ht]]. contradiction.
  - apply recovered_weaken, parse_declaration_recovered; try assumption.
    intros [t' [H _]]. discriminate.
Qed.

Lemma parse_parts_unbound_only parts :
  forall declarations errors,
    Forall (fun part => recovered_or_unbound (parse_declaration part)) parts ->
    recovered_or_unbound (parse_parts declarations errors parts).
Proof.
  induction parts as [|part parts IH]; intros declarations errors Hall; [exact I|].
  inversion Hall as [|? ? Hpart Hparts]; subst.
  cbn [parse_parts].
  destruct (parse_declaration part) as [d|[e| | | |]]; cbn in Hpart;
    try discriminate; try (now apply IH).
  exact Hpart.
Qed.

Lemma parse_declaration_list_unbound_only tokens :
  Forall well_formed tokens ->
  recovered_or_unbound (parse_declaration_list tokens).
Proof.
  intros Hwf. unfold parse_declaration_list.
  apply parse_parts_unbound_only.
  rewrite split_parts_segments, Forall_forall. intros segment Hin.
  destruct (segments_shape tokens segment Hin) as [[first [others [-> _]]] Hsub].
  apply parse_declaration_unbound_only; [|discriminate].
  rewrite Forall_forall in *. intros t Ht. apply Hwf. now apply Hsub.
Qed.

Lemma parse_ruleset_loop_unbound_only first tokens :
  forall parts token,
    Forall well_formed parts -> Forall well_formed tokens ->
    recovered_or_unbound (fst (parse_ruleset_loop first parts token tokens)).
Proof.
  induction tokens as [|t ts IH]; intros parts token Hparts Htokens; [exact I|].
  inversion Htokens as [|? ? Ht Hts]; subst.
  cbn [parse_ruleset_loop].
  destruct (tok_type t =? "{") eqn:Hb.
  - cbn [fst].
    pose proof (validate_all_recovered "selector" parts Hparts) as Hsel.
    destruct (for_each (fun selector_token => validate_any selector_token "selector")
                parts) as [[]|x]; cbn [bind]; [|now apply recovered_weaken].
    inversion Ht as [ty ? ? ? ? Hty | ty ? ? content ? ? _ Hcontent]; subst.
    + exfalso. apply Hty. cbn in Hb. apply String.eqb_eq in Hb. subst. simpl. auto.
    + cbn [tok_content bind].
      pose proof (parse_declaration_list_unbound_only content Hcontent) as Hlist.
      destruct (parse_declaration_list content) as [[ds es]|x]; [exact I | exact Hlist].
  - apply IH; [|exact Hts]. apply Forall_app. split; [exact Hparts | now constructor].
Qed.

Lemma read_at_rule_loop_recovered kw kwt tokens :
  forall head token,
    Forall well_formed head -> Forall well_formed tokens ->
    recovered (fst (read_at_rule_loop kw kwt head token tokens)).
Proof.
  induction tokens as [|t ts IH]; intros head token Hhead Htokens; [exact I|].
  inversion Htokens as [|? ? Ht Hts]; subst.
  cbn [read_at_rule_loop].
  destruct (str_in (tok_type t) "{;").
  - cbn [fst].
    pose proof (validate_all_recovered "at-rule head" head Hhead) as Hv.
    destruct (for_each (fun head_token => validate_any head_token "at-rule head") head)
      as [[]|x]; [exact I | exact Hv].
  - destruct (truthy head || negb (tok_type t =? "S")); apply IH; try assumption.
    apply Forall_app. split; [exact Hhead | now constructor].
Qed.

Lemma rest_after_suffix test tokens :
  exists consumed, tokens = consumed ++ rest_after test tokens.
Proof.
  induction tokens as [|t ts IH]; [now exists []|].
  cbn [rest_after]. destruct (test t); [now exists [t]|].
  destruct IH as [consumed Heq]. exists (t :: consumed). cbn. now rewrite <- Heq.
Qed.

Lemma parse_statement_suffix methods token tokens rules errors rest after :
  parse_statement methods token tokens rules errors = Ok (rest, after) ->
  exists consumed, token :: tokens = consumed ++ rest.
Proof.
  unfold parse_statement.
  destruct (negb (in_tuple (tok_type token) ["S"; "CDO"; "CDC"])).
  2:{ intros [= <- _]. now exists [token]. }
  destruct (tok_type token =? "ATKEYWORD").
  - assert (Hrest : exists consumed,
               tokens = consumed ++ snd (read_at_rule token tokens)).
    { unfold read_at_rule. destruct (tok_value token); [|now exists []].
      rewrite read_at_rule_loop_rest_after. apply rest_after_suffix. }
    destruct Hrest as [consumed Hrest].
    destruct (read_at_rule token tokens) as [read rest']. cbn [snd] in Hrest.
    assert (Hgoal : exists consumed0, token :: tokens = consumed0 ++ rest')
      by (exists (token :: consumed); cbn; now rewrite <- Hrest).
    destruct read as [rule|x].
    + destruct (dispatch methods rule rules errors) as [handled [rs es]].
      destruct handled as [u|[e| | | |]]; intros [= <- _]; exact Hgoal.
    + destruct x; intros [= <- _]; exact Hgoal.
  - assert (Hgoal : exists consumed,
               token :: tokens = consumed ++ snd (parse_ruleset token tokens)).
    { unfold parse_ruleset. rewrite parse_ruleset_loop_rest_after.
      apply rest_after_suffix. }
    destruct (parse_ruleset token tokens) as [parsed rest']. cbn [snd] in Hgoal.
    destruct parsed as [[rule rule_errors]|x].
    + intros [= <- _]; exact Hgoal.
    + destruct x; intros [= <- _]; exact Hgoal.
Qed.

Lemma read_at_rule_head_tokens at_keyword_token tokens rule rest :
  read_at_rule at_keyword_token tokens = (Ok rule, rest) ->
  forall t, In t (AtRule.head rule) -> In t tokens.
Proof.
  unfold read_at_rule.
  destruct (tok_value at_keyword_token) as [value|x]; [|discriminate].
  intros H t Ht. apply read_at_rule_loop_returns in H.
  destruct H as [ws [kept [stop [-> [_ [_ [_ [_ [_ [Hh _]]]]]]]]]].
  rewrite Hh in Ht. cbn [app] in Ht.
  apply in_or_app. right. apply in_or_app. now left.
Qed.

Lemma parse_statement_unbound_only token tokens rules errors :
  Forall well_formed (token :: tokens) ->
  Forall (fun t => tok_as_css t <> "") tokens ->
  recovered_or_unbound
    (parse_statement parse_at_rule_methods token tokens rules errors).
Proof.
  intros Hwf Htext. inversion Hwf as [|? ? Htoken Htokens]; subst.
  unfold parse_statement.
  destruct (negb (in_tuple (tok_type token) ["S"; "CDO"; "CDC"])); [|exact I].
  destruct (tok_type token =? "ATKEYWORD") eqn:Hat.
  - destruct (read_at_rule token tokens) as [[rule|x] rest] eqn:Hread.
    + rewrite dispatch_core.
      assert (Hhead : Forall (fun t => tok_as_css t <> "") (AtRule.head rule)).
      { rewrite Forall_forall in *. intros t Ht. apply Htext.
        now apply (read_at_rule_head_tokens token tokens rule rest Hread). }
      unfold parse_at_rule. cbn [fst].
      destruct (AtRule.at_keyword rule =? "@charset"); [|exact I].
      destruct ((AtRule.line rule =? 1) && (AtRule.column rule =? 1))%Z; [|exact I].
      destruct (charset_head_ok_spec rule Hhead) as [b [-> _]].
      destruct b; exact I.
    + assert (Hrec : recovered (fst (read_at_rule token tokens))).
      { unfold read_at_rule.
        inversion Htoken as [ty ? ? ? ? _ | ty ? ? ? ? ? Hty _]; subst.
        - cbn [tok_value]. apply read_at_rule_loop_recovered; [constructor | exact Htokens].
        - cbn in Hat. apply String.eqb_eq in Hat. subst ty.
          simpl in Hty. intuition discriminate. }
      rewrite Hread in Hrec. cbn [fst] in Hrec.
      destruct x; try contradiction. exact I.
  - assert (Hrec : recovered_or_unbound (fst (parse_ruleset token tokens))).
    { unfold parse_ruleset. apply parse_ruleset_loop_unbound_only; [constructor | exact Hwf]. }
    destruct (parse_ruleset token tokens) as [[[rule rule_errors]|x] rest];
      cbn [fst] in Hrec; [exact I|].
    destruct x; try discriminate Hrec; try exact I. exact Hrec.
Qed.

(** X15: on tokens as the tokenizer groups them -- a token is a
    container exactly when its type is a brace, parenthesis, bracket
    or FUNCTION, and every top-level token has a text -- the only
    exception that [parse_stylesheet] and [parse_style_attr] let out
    is the UnboundLocalError about the variable [token]: there is no
    StopIteration, AttributeError or IndexError, and no ParseError. *)
Theorem only_unbound_token_escapes (tokens : token_iter) :
  Forall well_formed tokens ->
  Forall (fun t => tok_as_css t <> "") tokens ->
  (forall x, parse_stylesheet tokens = Raise x -> x = UnboundLocalError "token") /\
  (forall x, parse_style_attr tokens = Raise x -> x = UnboundLocalError "token").
Proof.
  intros Hwf Htext. split.
  - assert (Hloop : forall tokens rules errors x,
               Forall well_formed tokens ->
               Forall (fun t => tok_as_css t <> "") tokens ->
               parse_rules_loop parse_at_rule_methods tokens rules errors = Raise x ->
               x = UnboundLocalError "token").
    { clear tokens Hwf Htext. intros tokens.
      remember (length tokens) as n eqn:Hn. revert tokens Hn.
      induction n as [n IH] using lt_wf_ind.
      intros tokens Hn rules errors x Hwf Htext H.
      destruct tokens as [|token tokens]; [simp parse_rules_loop in H; discriminate|].
      rewrite parse_rules_loop_cons in H.
      inversion Htext as [|? ? _ Htext']; subst.
      pose proof (parse_statement_unbound_only token tokens rules errors Hwf Htext')
        as Hturn.
      pose proof (parse_statement_never_parse_error parse_at_rule_methods
                    token tokens rules errors) as Hnever.
      destruct (parse_statement parse_at_rule_methods token tokens rules errors)
        as [[rest [rs es]]|y] eqn:Hs.
      - pose proof (parse_statement_rest _ _ _ _ _ _ _ Hs) as Hlen.
        destruct (parse_statement_suffix _ _ _ _ _ _ _ Hs) as [consumed Heq].
        apply (IH (length rest)) with (tokens := rest) (rules := rs) (errors := es);
          [cbn [length]; lia | reflexivity | | | exact H].
        + rewrite Heq in Hwf. apply Forall_app in Hwf. tauto.
        + assert (Hall : Forall (fun t => tok_as_css t <> "") (token :: tokens))
            by assumption.
          rewrite Heq in Hall. apply Forall_app in Hall. tauto.
      - injection H as <-.
        destruct y; cbn in Hturn; try exact Hturn.
        exfalso. now apply (Hnever e). }
    unfold parse_stylesheet, parse_rules. intros x H.
    destruct (parse_rules_loop parse_at_rule_methods tokens [] [])
      as [[rules errors]|y] eqn:Hp; cbn [bind] in H; [discriminate|].
    injection H as <-. exact (Hloop tokens [] [] y Hwf Htext Hp).
  - intros x H. unfold parse_style_attr in H.
    pose proof (parse_declaration_list_unbound_only tokens Hwf) as Hrec.
    rewrite H in Hrec. destruct x; cbn in Hrec; try exact Hrec.
    exfalso. unfold parse_declaration_list in H.
    now apply parse_parts_never_parse_error in H.
Qed.

(** ** Parsing again what was parsed *)

(** X16: what [parse_value] returns is a value it leaves as it is:
    parsing the result again returns the same tokens. *)
Theorem parse_value_idempotent (tokens content : list token) :
  parse_value tokens = Ok content ->
  parse_value content = Ok content.
Proof.
  clear unicode_lower.
  intros H.
  destruct (leading_white_space tokens) as [lead [rest [-> [Hlead Hrest]]]].
  unfold parse_value in H. rewrite parse_value_loop_skip in H by exact Hlead.
  destruct rest as [|first more].
  - cbn in H. injection H as <-. reflexivity.
  - destruct (parse_value_loop [] (first :: more)) as [result|x] eqn:Hloop;
      cbn [bind] in H; [|discriminate].
    apply parse_value_loop_from_first in Hloop; [|exact Hrest].
    destruct Hloop as [-> Hvalid].
    destruct (strip_trailing_S (first :: more)) as [trail [Heq [Htrail Hlast]]].
    remember (rev (pop_while_S (rev (first :: more)))) as core eqn:Hcore.
    assert (Hcontent : content = core) by congruence.
    subst content. clear H.
    destruct core as [|c0 cs]; [reflexivity|].
    destruct Hlast as [Hnil|Hlast]; [discriminate|].
    cbn [app] in Heq. injection Heq as Hc0 Hmore. subst c0.
    assert (Hcore_valid : Forall valid_value_token (first :: cs)).
    { rewrite Hmore in Hvalid. rewrite app_comm_cons in Hvalid.
      apply Forall_app in Hvalid. tauto. }
    unfold parse_value.
    rewrite parse_value_loop_first by assumption. cbn [bind].
    rewrite last_cons in Hlast.
    rewrite <- (app_nil_r (first :: cs)) at 1.
    rewrite strip_trailing; [reflexivity | now rewrite last_cons | constructor].
Qed.

Lemma parse_value_idempotent_witness :
  parse_value [Token "NUMBER" "1" "1" 1 2; Token "S" " " " " 1 3;
               Token "NUMBER" "2" "2" 1 4] =
  Ok [Token "NUMBER" "1" "1" 1 2; Token "S" " " " " 1 3;
      Token "NUMBER" "2" "2" 1 4].
Proof.
  apply (parse_value_idempotent
           [Token "S" " " " " 1 1; Token "NUMBER" "1" "1" 1 2;
            Token "S" " " " " 1 3; Token "NUMBER" "2" "2" 1 4;
            Token "S" " " " " 1 5]).
  reflexivity.
Defined.

(** ** A rule set in a stylesheet *)

(** X17: a stylesheet that starts with the selector of a rule set and
    its brace block.  With a selector of "any" tokens, the outcome
    depends on [parse_declaration_list] on the content of the block:
    when it returns, the stylesheet is that rule set followed by the
    stylesheet of the tokens after the block, the rule set first in
    the rules and the errors of its declarations first in the errors;
    when it raises, as it does on a lone identifier in [a {color}],
    [parse_rules] raises the same exception.  With a selector that
    fails with a ParseError, the rule set is left out and that error
    comes first, and the rest of the stylesheet is the same. *)
Theorem parse_rules_ruleset
    (first : token) (more : list token) (cs ce : string) (content : list token)
    (l c : Z) (after : token_iter) :
  let block := ContainerToken "{" cs ce content l c in
  let stream := first :: more ++ block :: after in
  let prepend rules errors :=
    match parse_rules after with
    | Ok (more_rules, more_errors) => Ok (rules ++ more_rules, errors ++ more_errors)
    | Raise x => Raise x
    end in
  ~ In (tok_type first) ["S"; "CDO"; "CDC"; "ATKEYWORD"] ->
  Forall (fun t => tok_type t <> "{") (first :: more) ->
  (Forall valid_any (first :: more) ->
   parse_rules stream =
   match parse_declaration_list content with
   | Ok (declarations, errors) =>
       prepend
         [IsRuleSet
            (RuleSet.mk
               (ContainerToken "SELECTOR" "" "" (first :: more)
                  (tok_line first) (tok_column first))
               declarations (tok_line first) (tok_column first))]
         errors
   | Raise x => Raise x
   end) /\
  (forall e,
      for_each (fun t => validate_any t "selector") (first :: more) =
        Raise (EParseError e) ->
      parse_rules stream = prepend [] [e]).
Proof.
  intros block stream prepend Hstart Hsel.
  assert (Hskip : in_tuple (tok_type first) ["S"; "CDO"; "CDC"] = false).
  { apply in_tuple_not_In. intros H. apply Hstart. simpl in *. tauto. }
  assert (Hat : (tok_type first =? "ATKEYWORD") = false).
  { apply String.eqb_neq. intros H. apply Hstart. rewrite H. simpl. tauto. }
  assert (Hparse : parse_ruleset first (more ++ block :: after) =
                   ((for_each (fun t => validate_any t "selector") (first :: more) ;;
                     parsed <- parse_declaration_list content ;;
                     let '(declarations, errors) := parsed in
                     Ok (RuleSet.mk
                           (ContainerToken "SELECTOR" "" "" (first :: more)
                              (tok_line first) (tok_column first))
                           declarations (tok_line first) (tok_column first), errors)),
                    after)).
  { unfold parse_ruleset.
    change (first :: more ++ block :: after) with ((first :: more) ++ block :: after).
    rewrite parse_ruleset_loop_collect by exact Hsel.
    cbn [app parse_ruleset_loop]. change (tok_type block) with "{".
    reflexivity. }
  split.
  - intros Hvalid.
    unfold parse_rules, stream. rewrite parse_rules_loop_cons. unfold parse_statement.
    rewrite Hskip, Hat, Hparse. cbn [negb].
    rewrite (proj2 (validate_all_ok "selector" (first :: more)) Hvalid).
    cbn [bind].
    destruct (parse_declaration_list content) as [[declarations errors]|x] eqn:Hlist.
    + cbn [bind app]. subst prepend. cbv beta.
      rewrite parse_rules_loop_accumulate. reflexivity.
    + cbn [bind]. destruct x; try reflexivity.
      exfalso. unfold parse_declaration_list in Hlist.
      now apply parse_parts_never_parse_error in Hlist.
  - intros e Hfail.
    unfold parse_rules, stream. rewrite parse_rules_loop_cons. unfold parse_statement.
    rewrite Hskip, Hat, Hparse. cbn [negb]. rewrite Hfail. cbn [bind app].
    subst prepend. cbv beta.
    rewrite parse_rules_loop_accumulate. reflexivity.
Qed.

End CaseMapping.

(** * Examples

    The examples hold strings of ASCII characters only.  [lower] does
    not consult the case mapping of Unicode on such strings: the
    examples are stated with a mapping that changes nothing, and what
    is said to fail fails with every mapping. *)

Definition keep_case (s : string) : string := s.

Lemma charset_rule_claimed_witness :
  fst (parse_at_rule
         (AtRule.mk "@charset" [Token "IDENT" "utf8" "utf8" 1 10] None 1 1) [] []) =
  parse_error
    (OnRule (AtRule.mk "@charset" [Token "IDENT" "utf8" "utf8" 1 10] None 1 1))
    "invalid @charset rule".
Proof.
  refine (proj2 (proj2 (proj2 (proj1 (proj2 (charset_rule_claimed keep_case))
            (AtRule.mk "@charset" [Token "IDENT" "utf8" "utf8" 1 10] None 1 1)
            [] [] eq_refl _))) _ _).
  - repeat constructor. discriminate.
  - split; reflexivity.
  - intros [[t [text [H [Hs _]]]] _]. cbn in H. injection H as <-. discriminate.
Defined.

(** C2, as stated, fails on scenario A: the result holds no AtRule. *)
Lemma charset_rule_not_in_rules :
  (forall unicode_lower,
      parse_stylesheet unicode_lower scenario_A = Ok (Stylesheet.mk [] [])) /\
  ~ (exists unicode_lower sheet r,
        parse_stylesheet unicode_lower scenario_A = Ok sheet /\
        In (IsAtRule r) (Stylesheet.rules sheet)).
Proof.
  assert (H : forall unicode_lower,
             parse_stylesheet unicode_lower scenario_A = Ok (Stylesheet.mk [] []))
    by (intros unicode_lower; vm_compute; reflexivity).
  split; [exact H|].
  intros [unicode_lower [sheet [r [Hsheet Hin]]]]. rewrite H in Hsheet.
  injection Hsheet as <-. destruct Hin.
Qed.

Lemma parse_declaration_property_name_witness :
  parse_declaration keep_case [Token "NUMBER" "12" "12" 1 1; Token ":" ":" ":" 1 3] =
  parse_error (OnToken (Token "NUMBER" "12" "12" 1 1))
    "expected a property name, got NUMBER".
Proof.
  apply (proj1 (parse_declaration_property_name keep_case
                  (Token "NUMBER" "12" "12" 1 1) [Token ":" ":" ":" 1 3])).
  simpl. discriminate.
Defined.

(** C3, as stated, fails on the empty sequence: [next(tokens)] raises
    StopIteration there, which is no ParseError. *)
Lemma parse_declaration_empty :
  (forall unicode_lower,
      parse_declaration unicode_lower [] = Raise StopIteration) /\
  ~ (exists unicode_lower e,
        parse_declaration unicode_lower [] = Raise (EParseError e)).
Proof.
  split; [reflexivity|]. intros [unicode_lower [e H]]. discriminate.
Qed.

Lemma parse_rules_recovery_witness :
  parse_rules_loop keep_case parse_at_rule_methods
    [Token "ATKEYWORD" "@page" "@page" 1 1; Token "}" "}" "}" 1 6;
     Token ";" ";" ";" 1 7; Token "IDENT" "a" "a" 1 8;
     ContainerToken "{" "{" "}" [] 1 9] [] [] =
  Ok ([IsRuleSet
         (RuleSet.mk
            (ContainerToken "SELECTOR" "" "" [Token "IDENT" "a" "a" 1 8] 1 8)
            [] 1 8)],
      [ParseError.mk (OnToken (Token "}" "}" "}" 1 6))
         "unmatched } token in at-rule head"]).
Proof.
  refine (eq_trans
            (proj2 (proj2 (proj2 (proj2 (proj1
               (parse_rules_recovery keep_case parse_at_rule_methods
                  (Token "ATKEYWORD" "@page" "@page" 1 1)
                  [Token "}" "}" "}" 1 6; Token ";" ";" ";" 1 7;
                   Token "IDENT" "a" "a" 1 8;
                   ContainerToken "{" "{" "}" [] 1 9]
                  [] []
                  (ParseError.mk (OnToken (Token "}" "}" "}" 1 6))
                     "unmatched } token in at-rule head") _)
               eq_refl eq_refl))))) _).
  - simpl. intuition discriminate.
  - vm_compute. reflexivity.
Defined.

Lemma read_at_rule_head_witness :
  exists ws kept,
    Forall is_S ws /\
    Forall (fun t => ~ ends_rule t) kept /\
    exists stop after,
      [Token "S" " " " " 1 7; Token "IDENT" "print" "print" 1 8;
       Token "S" " " " " 1 13; ContainerToken "{" "{" "}" [] 1 14;
       Token "IDENT" "a" "a" 1 16] = ws ++ kept ++ stop :: after /\
      ends_rule stop /\
      read_at_rule keep_case (Token "ATKEYWORD" "@Media" "@Media" 1 1)
        [Token "S" " " " " 1 7; Token "IDENT" "print" "print" 1 8;
         Token "S" " " " " 1 13; ContainerToken "{" "{" "}" [] 1 14;
         Token "IDENT" "a" "a" 1 16] =
      (Ok (AtRule.mk "@media"
             [Token "IDENT" "print" "print" 1 8; Token "S" " " " " 1 13]
             (Some (ContainerToken "{" "{" "}" [] 1 14)) 1 1),
       after).
Proof.
  destruct (read_at_rule_head keep_case "ATKEYWORD" "@Media" "@Media" 1 1
              [Token "S" " " " " 1 7; Token "IDENT" "print" "print" 1 8;
               Token "S" " " " " 1 13; ContainerToken "{" "{" "}" [] 1 14;
               Token "IDENT" "a" "a" 1 16])
    as [ws [kept [Hws [Hkept [_ Hcases]]]]].
  { repeat constructor; discriminate. }
  exists ws, kept. split; [exact Hws|]. split; [exact Hkept|].
  destruct Hcases as [[stop [after [Htokens [Hstop [Hrest _]]]]]|[_ Hend]].
  - exists stop, after. split; [exact Htokens|]. split; [exact Hstop|].
    rewrite <- Hrest. reflexivity.
  - discriminate Hend.
Defined.

Lemma parse_declaration_list_round_trip_witness :
  parse_declaration_list keep_case
    [Token "S" " " " " 1 1; Token "IDENT" "Color" "Color" 1 2;
     Token ":" ":" ":" 1 7; Token "S" " " " " 1 8;
     Token "IDENT" "red" "red" 1 9; Token "S" " " " " 1 12;
     Token "IDENT" "blue" "blue" 1 13; Token "S" " " " " 1 17;
     Token ";" ";" ";" 1 18] =
  Ok ([Declaration.mk "color"
         (ContainerToken "VALUES" "" ""
            [Token "IDENT" "red" "red" 1 9; Token "S" " " " " 1 12;
             Token "IDENT" "blue" "blue" 1 13] 1 9) 1 2],
      []).
Proof.
  apply (parse_declaration_list_round_trip keep_case
           [Token "S" " " " " 1 1] [] [Token "S" " " " " 1 8]
           [Token "S" " " " " 1 12; Token "IDENT" "blue" "blue" 1 13]
           [Token "S" " " " " 1 17] []
           (Token ":" ":" ":" 1 7) (Token "IDENT" "red" "red" 1 9)
           (Token ";" ";" ";" 1 18) "Color" "Color" 1 2);
    try reflexivity;
    try (repeat constructor; fail);
    try (simpl; discriminate).
Defined.


Lemma parse_declaration_expects_colon_witness :
  parse_declaration keep_case
    [Token "IDENT" "color" "color" 1 1; Token "S" " " " " 1 6;
     Token "IDENT" "red" "red" 1 7] =
  parse_error (OnToken (Token "IDENT" "red" "red" 1 7)) "expected ':', got IDENT".
Proof.
  apply (proj1 (parse_declaration_expects_colon keep_case "color" "color" 1 1
                  [Token "S" " " " " 1 6] ltac:(repeat constructor))
           (Token "IDENT" "red" "red" 1 7) []); discriminate.
Defined.

Lemma parse_declaration_expects_value_witness :
  parse_declaration keep_case
    [Token "IDENT" "invalid" "invalid" 1 18; Token ":" ":" ":" 1 25;
     Token "S" " " " " 1 26] =
  parse_error (OnToken (Token ":" ":" ":" 1 25)) "expected a property value".
Proof.
  apply (parse_declaration_expects_value keep_case "invalid" "invalid" 1 18 []
           [Token "S" " " " " 1 26] (Token ":" ":" ":" 1 25));
    repeat constructor.
Defined.

Lemma parse_declaration_returns_witness :
  exists css v l c ws colon value first others,
    [Token "IDENT" "Color" "Color" 1 1; Token ":" ":" ":" 1 6;
     Token "IDENT" "red" "red" 1 7] =
    Token "IDENT" css v l c :: ws ++ colon :: value /\
    Forall is_S ws /\
    tok_type colon = ":" /\
    parse_value value = Ok (first :: others) /\
    Declaration.mk "color"
      (ContainerToken "VALUES" "" "" [Token "IDENT" "red" "red" 1 7] 1 7) 1 1 =
    Declaration.mk (lower keep_case v)
      (ContainerToken "VALUES" "" "" (first :: others)
         (tok_line first) (tok_column first)) l c.
Proof.
  apply (parse_declaration_returns keep_case
           [Token "IDENT" "Color" "Color" 1 1; Token ":" ":" ":" 1 6;
            Token "IDENT" "red" "red" 1 7]).
  reflexivity.
Defined.

Lemma parse_ruleset_selector_witness :
  snd (parse_ruleset keep_case (Token "IDENT" "a" "a" 1 1)
         ([Token "S" " " " " 1 2] ++
          ContainerToken "{" "{" "}" [] 1 3 :: [Token "IDENT" "b" "b" 1 5])) =
  [Token "IDENT" "b" "b" 1 5].
Proof.
  apply (parse_ruleset_selector keep_case (Token "IDENT" "a" "a" 1 1)
           [Token "S" " " " " 1 2] "{" "}" [] 1 3 [Token "IDENT" "b" "b" 1 5]).
  repeat constructor; discriminate.
Defined.

Lemma parse_ruleset_without_block_witness :
  parse_rules_loop keep_case parse_at_rule_methods
    [Token "IDENT" "foo" "foo" 1 1; Token "S" " " " " 1 4] [] [] =
  Ok ([], [] ++
          [ParseError.mk (OnToken (Token "S" " " " " 1 4))
             "no declaration block found for ruleset"]).
Proof.
  apply (proj2 (parse_ruleset_without_block keep_case parse_at_rule_methods
                  (Token "IDENT" "foo" "foo" 1 1) [Token "S" " " " " 1 4] [] []
                  ltac:(repeat constructor; discriminate))).
  simpl. intuition discriminate.
Defined.

Lemma parse_rules_skips_witness :
  parse_rules keep_case [Token "S" " " " " 1 1; Token "CDO" "<!--" "<!--" 1 2;
               Token "CDC" "-->" "-->" 1 6] = Ok ([], []).
Proof.
  refine (proj2 (parse_rules_skips keep_case parse_at_rule_methods
                   [Token "S" " " " " 1 1; Token "CDO" "<!--" "<!--" 1 2;
                    Token "CDC" "-->" "-->" 1 6] [] [] [] _)).
  repeat (constructor; [simpl; tauto|]). constructor.
Defined.

Lemma unknown_at_rule_reported_witness :
  parse_rules_loop keep_case parse_at_rule_methods
    [Token "ATKEYWORD" "@Foo" "@Foo" 1 1; Token "S" " " " " 1 5;
     Token "IDENT" "bar" "bar" 1 6; Token ";" ";" ";" 1 9] [] [] =
  Ok ([],
      [ParseError.mk
         (OnRule (AtRule.mk "@foo" [Token "IDENT" "bar" "bar" 1 6] None 1 1))
         "unknown at-rule: @foo"]).
Proof.
  refine (proj1 (proj2 (proj2
            (unknown_at_rule_reported keep_case "@Foo" "@Foo" 1 1
               [Token "S" " " " " 1 5; Token "IDENT" "bar" "bar" 1 6;
                Token ";" ";" ";" 1 9] []
               (AtRule.mk "@foo" [Token "IDENT" "bar" "bar" 1 6] None 1 1) [] []
               _ eq_refl))) _).
  - vm_compute. discriminate.
  - constructor.
Defined.

Lemma core_rules_are_rulesets_witness :
  Forall (fun rule => (exists r, rule = IsRuleSet r) /\ rule_at_keyword rule = None)
    (Stylesheet.rules
       (Stylesheet.mk
          [IsRuleSet
             (RuleSet.mk
                (ContainerToken "SELECTOR" "" "" [Token "IDENT" "a" "a" 1 5] 1 5)
                [] 1 5)]
          [ParseError.mk (OnRule (AtRule.mk "@x" [] None 1 1)) "unknown at-rule: @x"])).
Proof.
  apply (core_rules_are_rulesets keep_case
           [Token "ATKEYWORD" "@x" "@x" 1 1; Token ";" ";" ";" 1 3;
            Token "S" " " " " 1 4; Token "IDENT" "a" "a" 1 5;
            ContainerToken "{" "{" "}" [] 1 6]).
  vm_compute. reflexivity.
Defined.

Lemma read_at_rule_returns_witness :
  exists ws stop,
    [Token "S" " " " " 1 8; Token "IDENT" "a" "a" 1 9; Token ";" ";" ";" 1 10] =
    ws ++ AtRule.head (AtRule.mk "@import" [Token "IDENT" "a" "a" 1 9] None 1 1) ++
    stop :: [] /\
    Forall is_S ws.
Proof.
  destruct (read_at_rule_returns keep_case (Token "ATKEYWORD" "@import" "@import" 1 1)
              [Token "S" " " " " 1 8; Token "IDENT" "a" "a" 1 9;
               Token ";" ";" ";" 1 10] []
              (AtRule.mk "@import" [Token "IDENT" "a" "a" 1 9] None 1 1) eq_refl)
    as [ws [stop [Htokens [Hws _]]]].
  exists ws, stop. split; assumption.
Defined.

Lemma parse_declaration_list_counts_witness :
  length scenario_C_declarations + length scenario_C_errors =
  length (split_parts [] [] scenario_C_block).
Proof.
  apply (parse_declaration_list_counts keep_case scenario_C_block
           scenario_C_declarations scenario_C_errors).
  vm_compute. reflexivity.
Defined.

Lemma only_unbound_token_escapes_witness :
  exists x,
    parse_style_attr keep_case [Token "IDENT" "color" "color" 1 1] = Raise x /\
    x = UnboundLocalError "token".
Proof.
  exists (UnboundLocalError "token"). split; [reflexivity|].
  refine (proj2 (only_unbound_token_escapes keep_case [Token "IDENT" "color" "color" 1 1] _ _)
            _ eq_refl).
  - repeat constructor. simpl. intuition discriminate.
  - repeat constructor. discriminate.
Defined.

Lemma parse_rules_ruleset_witness :
  parse_rules keep_case
    (Token "IDENT" "a" "a" 1 1 ::
     [Token "}" "}" "}" 1 2] ++ ContainerToken "{" "{" "}" [] 1 3 :: []) =
  match parse_rules keep_case [] with
  | Ok (more_rules, more_errors) =>
      Ok ([] ++ more_rules,
          [ParseError.mk (OnToken (Token "}" "}" "}" 1 2))
             "unmatched } token in selector"] ++ more_errors)
  | Raise x => Raise x
  end.
Proof.
  refine (proj2 (parse_rules_ruleset keep_case (Token "IDENT" "a" "a" 1 1)
                   [Token "}" "}" "}" 1 2] "{" "}" [] 1 3 [] _ _) _ eq_refl).
  - simpl. intuition discriminate.
  - repeat constructor; discriminate.
Defined.
